(** * CPU scheduling simulator (Project1/main.go)

    A shallow embedding of the four dispatch policies of [Project1/main.go]
    (first-come-first-served, shortest-job-first, shortest-job-first with
    priority, round-robin) together with the properties of their Gantt
    timelines, metric tables and aggregate statistics.

    Conventions of the embedding:
    - Go's [int64] is a [Z] whose arithmetic wraps around ([Int64.add],
      [Int64.sub], [Int64.mul]);
    - Go's [float64] is Rocq's primitive binary64 [float];
    - a Go slice whose backing array is observable through a pointer is a
      [Slice]: the backing array together with the visible length;
    - a loop that Go runs until a condition fails is a [Fixpoint] on a fuel
      argument and returns [None] when the fuel runs out. *)

From Stdlib Require Import ZArith Lia PrimFloat Uint63.
From stdpp Require Import base tactics option list strings relations.

Local Open Scope Z_scope.

(** ** Machine integers and floats *)

Module Int64.

Definition min_int : Z := - 2 ^ 63.
Definition max_int : Z := 2 ^ 63 - 1.

Definition in_range (z : Z) : Prop := min_int ≤ z ≤ max_int.

(** Two's complement wrap-around of a mathematical integer. *)
Definition wrap (z : Z) : Z := (z + 2 ^ 63) `mod` 2 ^ 64 - 2 ^ 63.

Definition add (a b : Z) : Z := wrap (a + b).
Definition sub (a b : Z) : Z := wrap (a - b).
Definition mul (a b : Z) : Z := wrap (a * b).

End Int64.

(** [float64(x)] for an [int64] [x]: round to nearest binary64. *)
Definition float64 (z : Z) : float :=
  if z =? Int64.min_int then
    PrimFloat.opp (PrimFloat.mul (PrimFloat.of_uint63 (Uint63.of_Z (2 ^ 62)))
                                 (PrimFloat.of_uint63 (Uint63.of_Z 2)))
  else if z <? 0 then PrimFloat.opp (PrimFloat.of_uint63 (Uint63.of_Z (- z)))
  else PrimFloat.of_uint63 (Uint63.of_Z z).

(** [float64(len(s))] *)
Definition float64_len {A} (s : list A) : float := float64 (Z.of_nat (length s)).

(** ** Data model *)

Record Process := mkProcess {
  ProcessID : Z;
  ArrivalTime : Z;
  BurstDuration : Z;
  Priority : Z;
}.

Record TimeSlice := mkTimeSlice {
  PID : Z;
  Start : Z;
  Stop : Z;
}.

Global Instance Process_inhabited : Inhabited Process :=
  populate (mkProcess 0 0 0 0).

Global Instance Process_eq_dec : EqDecision Process.
Proof. solve_decision. Defined.

Global Instance TimeSlice_eq_dec : EqDecision TimeSlice.
Proof. solve_decision. Defined.

(** The fields of a process that come from the CSV row are [int64]s. *)
Definition int64_process (p : Process) : Prop :=
  Int64.in_range (ProcessID p) ∧ Int64.in_range (ArrivalTime p) ∧
  Int64.in_range (BurstDuration p) ∧ Int64.in_range (Priority p).

(** A cell of the schedule table.  The code hands the sink strings; a cell
    keeps the printed value together with the verb that prints it:
    [CInt] for [fmt.Sprint] / [strconv.FormatInt(_, 10)] of an [int64],
    [CFloat2] for [strconv.FormatFloat(_, 'f', 2, 64)] / [%.2f]. *)
Inductive Cell :=
  | CInt (z : Z)
  | CFloat2 (f : float).

(** A row is a [[]string]; the rows that [make([][]string, n)] allocates are
    [nil], that is [[]]. *)
Definition Row := list Cell.

(** What a scheduler hands to [outputTitle], [outputGantt] and
    [outputSchedule]. *)
Record Report := mkReport {
  r_title : string;
  r_gantt : list TimeSlice;
  r_rows : list Row;
  r_wait : float;
  r_turnaround : float;
  r_throughput : float;
}.

(** ** Go slices with an observable backing array *)

Record Slice := mkSlice {
  arr : list Process;   (* the backing array, from the slice's first element *)
  len : nat;            (* the visible length *)
}.

Definition elems (s : Slice) : list Process := take (len s) (arr s).

(** [make([]Process, len(ps)); copy(_, ps)] *)
Definition slice_copy (ps : list Process) : Slice := mkSlice ps (length ps).

(** [*(&s[i])]: a pointer into the slice reads the backing array. *)
Definition deref (s : Slice) (i : nat) : Process := arr s !!! i.

(** [append(s[:i], s[i+1:]...)]: the capacity suffices, so the tail is moved
    one slot down inside the same backing array; the slot of the old last
    element keeps its contents. *)
Definition remove_at (s : Slice) (i : nat) : Slice :=
  mkSlice (take i (arr s) ++ drop (S i) (elems s) ++ drop (len s - 1) (arr s))
          (len s - 1).

(** ** [func min(a, b int64) int64] and [priorityPenalty] *)

Definition min (a b : Z) : Z := if a <? b then a else b.

Definition priorityPenalty (p : Process) : Z :=
  Int64.mul (Int64.sub (Priority p) 1) 5.

(** ** [sort.Slice]

    The sorting routine belongs to Go's library, not to this program: the
    schedulers take it as a parameter, and the properties below ask of it
    only that it rearranges the slice ([permutes]).  The concrete runs use
    [insertionSort], the routine the library itself runs on a slice of at
    most 12 elements ([insertionSortLessFunc]: every element is swapped
    towards the front while it is less than its left neighbour). *)

Fixpoint insert_back (less : Process → Process → bool) (x : Process)
    (rev_prefix : list Process) : list Process :=
  match rev_prefix with
  | [] => [x]
  | y :: r => if less x y then y :: insert_back less x r else x :: y :: r
  end.

Definition insertionSort (less : Process → Process → bool)
    (l : list Process) : list Process :=
  reverse (foldl (λ acc x, insert_back less x acc) [] l).

(** The three comparison closures. *)
Definition less_arrival (a b : Process) : bool :=
  ArrivalTime a <? ArrivalTime b.

Definition less_arrival_priority_burst (a b : Process) : bool :=
  if negb (ArrivalTime a =? ArrivalTime b) then ArrivalTime a <? ArrivalTime b
  else if negb (Priority a =? Priority b) then Priority a <? Priority b
  else BurstDuration a <? BurstDuration b.

(** ** FCFSSchedule *)

Record FCFSState := mkFCFS {
  f_serviceTime : Z;
  f_totalWait : float;
  f_totalTurnaround : float;
  f_lastCompletion : float;
  f_waitingTime : Z;
  f_schedule : list Row;
  f_gantt : list TimeSlice;
}.

Definition FCFS_init (processes : list Process) : FCFSState :=
  mkFCFS 0 0%float 0%float 0%float 0 (replicate (length processes) []) [].

(** One iteration of [for i := range processes]. *)
Definition FCFS_body (i : nat) (p : Process) (st : FCFSState) : FCFSState :=
  let waitingTime :=
    if 0 <? ArrivalTime p then Int64.sub (f_serviceTime st) (ArrivalTime p)
    else f_waitingTime st in
  let totalWait := PrimFloat.add (f_totalWait st) (float64 waitingTime) in
  let start := Int64.add waitingTime (ArrivalTime p) in
  let turnaround := Int64.add (BurstDuration p) waitingTime in
  let totalTurnaround :=
    PrimFloat.add (f_totalTurnaround st) (float64 turnaround) in
  let completion :=
    Int64.add (Int64.add (BurstDuration p) (ArrivalTime p)) waitingTime in
  let lastCompletion := float64 completion in
  let row := [CInt (ProcessID p); CInt (Priority p); CInt (BurstDuration p);
              CInt (ArrivalTime p); CInt waitingTime; CInt turnaround;
              CInt completion] in
  let serviceTime := Int64.add (f_serviceTime st) (BurstDuration p) in
  mkFCFS serviceTime totalWait totalTurnaround lastCompletion waitingTime
         (<[i := row]> (f_schedule st))
         (f_gantt st ++ [mkTimeSlice (ProcessID p) start serviceTime]).

Fixpoint FCFS_loop (i : nat) (ps : list Process) (st : FCFSState)
    : FCFSState :=
  match ps with
  | [] => st
  | p :: ps' => FCFS_loop (S i) ps' (FCFS_body i p st)
  end.

(** The scheduler returns the caller's slice as it leaves it, and the
    report. *)
Definition FCFSSchedule (title : string) (processes : list Process)
    : list Process * Report :=
  let st := FCFS_loop 0 processes (FCFS_init processes) in
  let count := float64_len processes in
  let aveWait := PrimFloat.div (f_totalWait st) count in
  let aveTurnaround := PrimFloat.div (f_totalTurnaround st) count in
  let aveThroughput := PrimFloat.div count (f_lastCompletion st) in
  (processes,
   mkReport title (f_gantt st) (f_schedule st) aveWait aveTurnaround
            aveThroughput).


(** ** The working-set schedulers

    [SJFSchedule], [SJFPrioritySchedule] and [RRSchedule] first call
    [sort.Slice] on the slice they are given, which sorts the caller's
    backing array, then copy it into a working slice of their own. *)

Section Schedulers.

(** [sort.Slice(processes, less)], as a function from the contents of
    the slice before the call to its contents after it. *)
Variable sort_Slice : (Process → Process → bool) → list Process → list Process.

(** *** SJFSchedule *)

Record SJFState := mkSJF {
  s_currTime : Z;
  s_waitTime : float;
  s_turn : float;
  s_gantt : list TimeSlice;
  s_schedule : list Row;
  s_remaining : Slice;
}.

Definition SJF_init (processes : list Process) : SJFState :=
  mkSJF 0 0%float 0%float [] (replicate (length processes) [])
        (slice_copy processes).

(** The inner loop: [shortestIndex] starts at 0 and moves to [i] whenever
    the burst at [i] is strictly smaller. *)
Definition SJF_pick (rem : list Process) (shortestIndex i : nat) : nat :=
  if BurstDuration (rem !!! i) <? BurstDuration (rem !!! shortestIndex)
  then i else shortestIndex.

Definition SJF_shortestIndex (rem : list Process) : nat :=
  foldl (SJF_pick rem) 0%nat (seq 0 (length rem)).

(** The metrics row that SJF and SJF-Priority append. *)
Definition SJF_row (shortest : Process) (currTime : Z) : Row :=
  [CInt (ProcessID shortest); CInt (Priority shortest);
   CInt (BurstDuration shortest); CInt (ArrivalTime shortest);
   CFloat2 (float64 (Int64.sub currTime (ArrivalTime shortest)));
   CFloat2 (float64 (Int64.sub (Int64.add currTime (BurstDuration shortest))
                               (ArrivalTime shortest)));
   CInt (Int64.add currTime (BurstDuration shortest))].

(** One iteration of [for len(remainingProcesses) > 0].  [shortest] is a
    pointer to slot [shortestIndex] of the working slice: what is read
    through it after the removal is what the slot holds then. *)
Definition SJF_body (st : SJFState) : SJFState :=
  let rem := s_remaining st in
  let shortestIndex := SJF_shortestIndex (elems rem) in
  let shortest := deref rem shortestIndex in
  let currTime :=
    if s_currTime st <? ArrivalTime shortest then ArrivalTime shortest
    else s_currTime st in
  let gantt :=
    s_gantt st ++ [mkTimeSlice (ProcessID shortest) currTime
                     (Int64.add currTime (BurstDuration shortest))] in
  let waitTime :=
    PrimFloat.add (s_waitTime st)
      (float64 (Int64.sub currTime (ArrivalTime shortest))) in
  let turn :=
    PrimFloat.add (s_turn st)
      (PrimFloat.sub
         (float64 (Int64.sub (Int64.add currTime (BurstDuration shortest))
                             (ArrivalTime shortest)))
         waitTime) in
  let schedule := s_schedule st ++ [SJF_row shortest currTime] in
  let rem' := remove_at rem shortestIndex in
  let currTime' :=
    Int64.add currTime (BurstDuration (deref rem' shortestIndex)) in
  mkSJF currTime' waitTime turn gantt schedule rem'.

Fixpoint SJF_loop (fuel : nat) (st : SJFState) : option SJFState :=
  if bool_decide (0 < len (s_remaining st))%nat then
    match fuel with
    | O => None
    | S fuel' => SJF_loop fuel' (SJF_body st)
    end
  else Some st.

(** The report built from the final state of a working-set loop. *)
Definition SJF_report (title : string) (processes : list Process)
    (st : SJFState) : Report :=
  let throughput :=
    PrimFloat.div (float64_len processes) (float64 (s_currTime st)) in
  mkReport title (s_gantt st) (s_schedule st)
           (PrimFloat.div (s_waitTime st) (float64_len processes))
           (PrimFloat.div (s_turn st) (float64_len processes))
           throughput.

Definition SJFSchedule (fuel : nat) (title : string)
    (processes : list Process) : option (list Process * Report) :=
  let processes := sort_Slice less_arrival processes in
  st ← SJF_loop fuel (SJF_init processes);
  Some (processes, SJF_report title processes st).

(** *** SJFPrioritySchedule *)

(** The selection loop: [shortest] is [nil] or points at a slot. *)
Definition SJFP_pick (rem : list Process) (currTime : Z)
    (shortest : option nat) (i : nat) : option nat :=
  if ArrivalTime (rem !!! i) <=? currTime then
    match shortest with
    | None => Some i
    | Some j =>
        if (BurstDuration (rem !!! i) <? BurstDuration (rem !!! j))
           || ((BurstDuration (rem !!! i) =? BurstDuration (rem !!! j))
               && (Priority (rem !!! i) <? Priority (rem !!! j)))
        then Some i else Some j
    end
  else shortest.

Definition SJFP_select (rem : list Process) (currTime : Z) : option nat :=
  foldl (SJFP_pick rem currTime) None (seq 0 (length rem)).

(** The idle branch: [nextArrivalTime] starts at the first remaining
    arrival and takes every smaller arrival that lies after the clock. *)
Definition SJFP_nextArrival (rem : list Process) (currTime : Z) : Z :=
  foldl (λ nextArrivalTime process,
           if (currTime <? ArrivalTime process)
              && (ArrivalTime process <? nextArrivalTime)
           then ArrivalTime process else nextArrivalTime)
        (ArrivalTime (rem !!! 0%nat)) rem.

(** The removal loop: the first slot whose id equals the id read through
    [shortest] is removed, then the loop breaks. *)
Definition SJFP_remove (rem : Slice) (pid : Z) : Slice :=
  match list_find (λ process, ProcessID process = pid) (elems rem) with
  | Some (i, _) => remove_at rem i
  | None => rem
  end.

Definition SJFP_body (st : SJFState) : SJFState :=
  let rem := s_remaining st in
  let currTime := s_currTime st in
  match SJFP_select (elems rem) currTime with
  | None =>
      mkSJF (SJFP_nextArrival (elems rem) currTime) (s_waitTime st)
            (s_turn st) (s_gantt st) (s_schedule st) rem
  | Some i =>
      let shortest := deref rem i in
      let gantt :=
        s_gantt st ++ [mkTimeSlice (ProcessID shortest) currTime
                         (Int64.add currTime (BurstDuration shortest))] in
      let waitTime :=
        PrimFloat.add (s_waitTime st)
          (float64 (Int64.sub currTime (ArrivalTime shortest))) in
      let turn :=
        PrimFloat.add (s_turn st)
          (PrimFloat.sub
             (float64 (Int64.sub (Int64.add currTime (BurstDuration shortest))
                                 (ArrivalTime shortest)))
             waitTime) in
      let schedule := s_schedule st ++ [SJF_row shortest currTime] in
      let rem' := SJFP_remove rem (ProcessID shortest) in
      let currTime' := Int64.add currTime (BurstDuration (deref rem' i)) in
      mkSJF currTime' waitTime turn gantt schedule rem'
  end.

Fixpoint SJFP_loop (fuel : nat) (st : SJFState) : option SJFState :=
  if bool_decide (0 < len (s_remaining st))%nat then
    match fuel with
    | O => None
    | S fuel' => SJFP_loop fuel' (SJFP_body st)
    end
  else Some st.

Definition SJFPrioritySchedule (fuel : nat) (title : string)
    (processes : list Process) : option (list Process * Report) :=
  let processes := sort_Slice less_arrival_priority_burst processes in
  st ← SJFP_loop fuel (SJF_init processes);
  Some (processes, SJF_report title processes st).

(** *** RRSchedule *)

Record RRState := mkRR {
  rr_gantt : list TimeSlice;
  rr_schedule : list Row;
  rr_wait : float;
  rr_turn : float;
  rr_elapsed : Z;
  rr_queue : list Process;
}.

Definition RR_init (processes : list Process) : RRState :=
  mkRR [] (replicate (length processes) []) 0%float 0%float 0 processes.

(** [p] with [p.BurstDuration -= d]. *)
Definition burst_sub (p : Process) (d : Z) : Process :=
  mkProcess (ProcessID p) (ArrivalTime p) (Int64.sub (BurstDuration p) d)
            (Priority p).

(** One iteration of [for len(queue) > 0]; [p] is a copy of the head. *)
Definition RR_body (quantum : Z) (st : RRState) : RRState :=
  match rr_queue st with
  | [] => st
  | p :: queue =>
      let gantt :=
        rr_gantt st ++
        [mkTimeSlice (ProcessID p) (rr_elapsed st)
           (Int64.add (rr_elapsed st) (min (BurstDuration p) quantum))] in
      let elapsed :=
        Int64.add (rr_elapsed st) (min (BurstDuration p) quantum) in
      let p := burst_sub p (min (BurstDuration p) quantum) in
      if 0 <? BurstDuration p then
        mkRR gantt (rr_schedule st) (rr_wait st) (rr_turn st) elapsed
             (queue ++ [p])
      else
        let w :=
          float64 (Int64.sub (Int64.sub elapsed (ArrivalTime p))
                             (priorityPenalty p)) in
        let t := float64 (Int64.sub elapsed (ArrivalTime p)) in
        mkRR gantt
             (rr_schedule st ++
              [[CInt (ProcessID p); CInt (Priority p);
                CInt (BurstDuration p); CInt (ArrivalTime p);
                CFloat2 w; CFloat2 t; CInt elapsed]])
             (PrimFloat.add (rr_wait st) w) (PrimFloat.add (rr_turn st) t)
             elapsed queue
  end.

Fixpoint RR_loop (fuel : nat) (quantum : Z) (st : RRState)
    : option RRState :=
  match rr_queue st with
  | [] => Some st
  | _ :: _ =>
      match fuel with
      | O => None
      | S fuel' => RR_loop fuel' quantum (RR_body quantum st)
      end
  end.

Definition RR_report (title : string) (processes : list Process)
    (st : RRState) : Report :=
  let tp :=
    PrimFloat.div (float64_len processes) (float64 (rr_elapsed st)) in
  mkReport title (rr_gantt st) (rr_schedule st)
           (PrimFloat.div (rr_wait st) (float64_len processes))
           (PrimFloat.div (rr_turn st) (float64_len processes))
           tp.

Definition RRSchedule (fuel : nat) (title : string)
    (processes : list Process) (quantum : Z)
    : option (list Process * Report) :=
  let processes := sort_Slice less_arrival processes in
  st ← RR_loop fuel quantum (RR_init processes);
  Some (processes, RR_report title processes st).

(** *** main

    The four policies run in sequence on the one slice [processes];
    each receives the slice as the previous one left it. *)
Definition main_run (fuel : nat) (processes : list Process)
    : option (list Process * list Report) :=
  let '(ps1, r1) := FCFSSchedule "First-come, first-serve" processes in
  '(ps2, r2) ← SJFSchedule fuel "Shortest-job-first" ps1;
  '(ps3, r3) ← SJFPrioritySchedule fuel "Priority" ps2;
  '(ps4, r4) ← RRSchedule fuel "Round-robin" ps3 2;
  Some (ps4, [r1; r2; r3; r4]).

End Schedulers.

(** ** Measures, invariants and the batches used below *)

(** The processor time the Gantt timeline gives to process [pid]. *)
Definition slice_time (pid : Z) (gantt : list TimeSlice) : Z :=
  foldr (λ s acc, if decide (PID s = pid) then (Stop s - Start s) + acc else acc)
        0 gantt.

(** Column [k] of a table, row by row ([None] where a row has no such cell). *)
Definition column (k : nat) (rows : list Row) : list (option Cell) :=
  (λ row : Row, row !! k) <$> rows.

(** The running sum of the bursts of the processes before index [i]. *)
Definition serviceTimeSoFar (processes : list Process) (i : nat) : Z :=
  foldl Int64.add 0 (BurstDuration <$> take i processes).

(** The textbook batch: bursts 24, 3, 3, all arriving at 0. *)
Definition batch_24_3_3 : list Process :=
  [mkProcess 1 0 24 0; mkProcess 2 0 3 0; mkProcess 3 0 3 0].

Definition slice_wf (s : Slice) : Prop := (len s ≤ length (arr s))%nat.

(** A batch whose processes all arrive after time 0. *)
Definition batch_late_arrivals : list Process :=
  [mkProcess 1 1 24 0; mkProcess 2 2 3 0; mkProcess 3 3 3 0].

(** A dispatch: the process that runs and the clock at which it starts. *)
Definition dispatch_slice (d : Process * Z) : TimeSlice :=
  mkTimeSlice (ProcessID d.1) d.2 (Int64.add d.2 (BurstDuration d.1)).

Definition dispatch_row (d : Process * Z) : Row := SJF_row d.1 d.2.

(** The state of a working-set loop after the dispatches [tr]: the Gantt
    timeline and the appended rows list them in order, and the processes
    dispatched together with those still in the working set are the
    processes the loop started from. *)
Definition dispatched (processes : list Process) (tr : list (Process * Z))
    (st : SJFState) : Prop :=
  slice_wf (s_remaining st) ∧
  s_gantt st = dispatch_slice <$> tr ∧
  s_schedule st = replicate (length processes) [] ++ (dispatch_row <$> tr) ∧
  tr.*1 ++ elems (s_remaining st) ≡ₚ processes.

(** Twice the size of the working set, less one when a process is
    eligible: every iteration lowers it. *)
Definition SJFP_measure (st : SJFState) : nat :=
  2 * len (s_remaining st) -
  match SJFP_select (elems (s_remaining st)) (s_currTime st) with
  | Some _ => 1
  | None => 0
  end.

(** The metrics row of a process that completes at time [elapsed]. *)
Definition RR_row (p : Process) (elapsed : Z) : Row :=
  let turnaround := Int64.sub elapsed (ArrivalTime p) in
  let wait := Int64.sub turnaround (Int64.mul (Int64.sub (Priority p) 1) 5) in
  [CInt (ProcessID p); CInt (Priority p); CInt 0; CInt (ArrivalTime p);
   CFloat2 (float64 wait); CFloat2 (float64 turnaround); CInt elapsed].

(** One turn of the ready queue as the specification words it (section
    4.4), to be compared with [RR_body]: the head runs for
    [ran = min(burst, q)], the slice [elapsed, elapsed + ran] is appended
    and [elapsed] advances by [ran]; when burst is left the head goes back
    to the tail with it, and when none is left its turnaround
    [elapsed - arrival] and wait [turnaround - (priority - 1) * 5] are
    recorded. *)
Inductive RR_step_spec (q : Z) : RRState → RRState → Prop :=
  | RR_step_requeue st p queue ran elapsed :
      rr_queue st = p :: queue →
      ran = Z.min (BurstDuration p) q →
      elapsed = Int64.add (rr_elapsed st) ran →
      0 < BurstDuration p - ran →
      RR_step_spec q st
        (mkRR (rr_gantt st ++ [mkTimeSlice (ProcessID p) (rr_elapsed st) elapsed])
              (rr_schedule st) (rr_wait st) (rr_turn st) elapsed
              (queue ++ [mkProcess (ProcessID p) (ArrivalTime p)
                                   (BurstDuration p - ran) (Priority p)]))
  | RR_step_complete st p queue ran elapsed turnaround wait :
      rr_queue st = p :: queue →
      ran = Z.min (BurstDuration p) q →
      elapsed = Int64.add (rr_elapsed st) ran →
      BurstDuration p - ran = 0 →
      turnaround = Int64.sub elapsed (ArrivalTime p) →
      wait = Int64.sub turnaround (Int64.mul (Int64.sub (Priority p) 1) 5) →
      RR_step_spec q st
        (mkRR (rr_gantt st ++ [mkTimeSlice (ProcessID p) (rr_elapsed st) elapsed])
              (rr_schedule st ++ [RR_row p elapsed])
              (PrimFloat.add (rr_wait st) (float64 wait))
              (PrimFloat.add (rr_turn st) (float64 turnaround))
              elapsed queue).

(** The bursts in the ready queue are [int64]s. *)
Definition RR_queue_ok (st : RRState) : Prop :=
  Forall (λ p, Int64.in_range (BurstDuration p)) (rr_queue st).

(** An upper bound on the turns a process still takes. *)
Definition RR_weight (p : Process) : nat := Z.to_nat (Z.max 1 (BurstDuration p)).

Definition RR_measure (queue : list Process) : nat :=
  sum_list_with RR_weight queue.

(** What the schedulers rely on: [sort.Slice] rearranges the slice. *)
Definition permutes
    (sort_Slice : (Process → Process → bool) → list Process → list Process)
    : Prop :=
  ∀ less l, sort_Slice less l ≡ₚ l.

(** The batch of the specification's SJF example, (id, burst, arrival) =
    (1,6,2), (2,8,0), (3,7,4), (4,3,6). *)
Definition batch_sjf : list Process :=
  [mkProcess 1 2 6 0; mkProcess 2 0 8 0; mkProcess 3 4 7 0; mkProcess 4 6 3 0].

(** Two processes that arrive together, the shorter one first. *)
Definition batch_pair : list Process :=
  [mkProcess 1 0 2 0; mkProcess 2 0 5 0].

Definition batch_single : list Process := [mkProcess 1 0 5 0].

(** The clock stands at the end of the last slice of the timeline. *)
Definition clock_at_last_stop (gantt : list TimeSlice) (clock : Z) : Prop :=
  gantt = [] ∨ Stop <$> last gantt = Some clock.

(** The batch of the specification's round-robin example, (id, burst,
    arrival) = (1,5,0), (2,3,0). *)
Definition batch_rr : list Process := [mkProcess 1 0 5 0; mkProcess 2 0 3 0].

(** The processor time the batch asks for. *)
Definition total_burst (processes : list Process) : nat :=
  sum_list_with (λ p, Z.to_nat (BurstDuration p)) processes.

(** ** outputGantt

    [fmt.Sprint] of an [int64] is the library's decimal text and is taken as
    a parameter.  Writing appends to the text written so far; a panic ends
    the function with what was written before it. *)

Inductive Written :=
  | Done (out : string)
  | Panicked (out : string).

Definition newline : string := String (Ascii.ascii_of_nat 10) "".
Definition tab : string := String (Ascii.ascii_of_nat 9) "".

(** [strings.Repeat(s, count)] panics when [count] is negative. *)
Definition Repeat (s : string) (count : Z) : option string :=
  if count <? 0 then None
  else Some (String.concat "" (replicate (Z.to_nat count) s)).

Section Output.

Variable Sprint : Z → string.

(** The text of one cell of the chart: the id between two paddings of
    [(8 - len(pid)) / 2] spaces, then a bar.  Go's integer division
    truncates towards zero. *)
Definition gantt_cell (slice : TimeSlice) : option string :=
  let pid := Sprint (PID slice) in
  padding ← Repeat " " (Z.quot (8 - Z.of_nat (String.length pid)) 2);
  Some (padding +:+ pid +:+ padding +:+ "|").

(** The first loop: one cell per slice. *)
Fixpoint gantt_cells (gantt : list TimeSlice) (out : string) : Written :=
  match gantt with
  | [] => Done out
  | slice :: rest =>
      match gantt_cell slice with
      | None => Panicked out
      | Some cell => gantt_cells rest (out +:+ cell)
      end
  end.

(** The second loop: every start followed by a tab, and the stop of the
    slice whose index is [len(gantt) - 1]. *)
Fixpoint gantt_times (n i : nat) (gantt : list TimeSlice) (out : string)
    : string :=
  match gantt with
  | [] => out
  | slice :: rest =>
      let out := out +:+ Sprint (Start slice) +:+ tab in
      let out :=
        if decide (Z.of_nat n - 1 = Z.of_nat i) then out +:+ Sprint (Stop slice)
        else out in
      gantt_times n (S i) rest out
  end.

Definition outputGantt (gantt : list TimeSlice) : Written :=
  match gantt_cells gantt ("Gantt schedule" +:+ newline +:+ "|") with
  | Panicked out => Panicked out
  | Done out =>
      Done (gantt_times (length gantt) 0 gantt (out +:+ newline)
            +:+ newline +:+ newline)
  end.

End Output.

(** ** loadProcesses

    The CSV reader and [strconv.ParseInt] belong to Go's library.  The rows
    the reader returns are the input ([None] when it returns an error), and
    [ParseInt s] is the value of [strconv.ParseInt(s, 10, 64)], [None] when
    it returns an error. *)

Inductive Loaded (A : Type) :=
  | Ok (a : A)          (* the function returns *)
  | ReadError           (* [loadProcesses] returns the reader's error *)
  | Exit1               (* [mustStrToInt] printed the error and called [os.Exit(1)] *)
  | IndexPanic.         (* [rows[i][k]] with [k] out of range *)

Arguments Ok {A} a.
Arguments ReadError {A}.
Arguments Exit1 {A}.
Arguments IndexPanic {A}.

Definition Loaded_bind {A B} (m : Loaded A) (k : A → Loaded B) : Loaded B :=
  match m with
  | Ok a => k a
  | ReadError => ReadError
  | Exit1 => Exit1
  | IndexPanic => IndexPanic
  end.

Section Loading.

Variable ParseInt : string → option Z.

Definition mustStrToInt (s : string) : Loaded Z :=
  match ParseInt s with
  | Some i => Ok i
  | None => Exit1
  end.

(** [mustStrToInt(rows[i][k])] *)
Definition load_field (row : list string) (k : nat) : Loaded Z :=
  match row !! k with
  | Some s => mustStrToInt s
  | None => IndexPanic
  end.

(** The body of the loop: the fields are read in the order id, burst,
    arrival, and the priority only when the row has exactly four fields;
    otherwise the priority keeps the zero value of [make]. *)
Definition load_row (row : list string) : Loaded Process :=
  Loaded_bind (load_field row 0) (λ id,
  Loaded_bind (load_field row 1) (λ burst,
  Loaded_bind (load_field row 2) (λ arrival,
  if decide (length row = 4%nat) then
    Loaded_bind (load_field row 3) (λ priority,
    Ok (mkProcess id arrival burst priority))
  else Ok (mkProcess id arrival burst 0)))).

Fixpoint load_rows (rows : list (list string)) : Loaded (list Process) :=
  match rows with
  | [] => Ok []
  | row :: rest =>
      Loaded_bind (load_row row) (λ p,
      Loaded_bind (load_rows rest) (λ ps, Ok (p :: ps)))
  end.

Definition loadProcesses (read : option (list (list string)))
    : Loaded (list Process) :=
  match read with
  | None => ReadError
  | Some rows => load_rows rows
  end.

End Loading.

(** ** Less (Project2/builtins)

    The file is what [os.Open] and the scanner give: [None] when the file
    cannot be opened, else the lines the scanner yields and whether it ends
    with an error.  What the function does is the list of its prints and
    pauses; it returns [nil] in every case. *)

Inductive LessEvent :=
  | PrintOpenError                              (* [fmt.Println("Error:", err)] *)
  | PrintLine (lineNumber : Z) (text : string)  (* [fmt.Printf("%4d  %s\n", ...)] *)
  | PressEnter                                  (* the prompt and the read from stdin *)
  | PrintReadError.                             (* [fmt.Println("Error reading file:", err)] *)

Global Instance LessEvent_eq_dec : EqDecision LessEvent.
Proof. solve_decision. Defined.

(** [for scanner.Scan() { ... }] with [lineNumber] an [int]. *)
Fixpoint Less_loop (lines : list string) (lineNumber : Z) : list LessEvent :=
  match lines with
  | [] => []
  | text :: rest =>
      let lineNumber' := Int64.add lineNumber 1 in
      PrintLine lineNumber text ::
      (if Z.rem lineNumber' 20 =? 0 then [PressEnter] else []) ++
      Less_loop rest lineNumber'
  end.

Definition Less (file : option (list string * bool))
    : list LessEvent * option string :=
  match file with
  | None => ([PrintOpenError], None)
  | Some (lines, failed) =>
      (Less_loop lines 1 ++ (if failed then [PrintReadError] else []), None)
  end.

(** ** Further measures used by the properties *)

(** The slices of a timeline follow one another from [from] to [to]. *)
Fixpoint contiguous (from to : Z) (gantt : list TimeSlice) : Prop :=
  match gantt with
  | [] => from = to
  | slice :: rest => Start slice = from ∧ contiguous (Stop slice) to rest
  end.

(** The bursts of the processes that carry the id [pid], summed. *)
Definition burst_of (pid : Z) (processes : list Process) : Z :=
  foldr (λ p acc, if decide (ProcessID p = pid) then BurstDuration p + acc else acc)
        0 processes.

(** The sum of all bursts. *)
Definition burst_sum (processes : list Process) : Z :=
  foldr (λ p acc, BurstDuration p + acc) 0 processes.

(** A working set whose two processes arrive at 4 and at 2. *)
Definition state_before_arrivals : SJFState :=
  mkSJF 0 0%float 0%float [] []
        (slice_copy [mkProcess 1 4 3 0; mkProcess 2 2 5 0]).

(** The state in which [SJFSchedule] on the specification's batch
    dispatches process 1: clock 9, processes 2, 1, 3 left. *)
Definition state_sjf_second : SJFState :=
  mkSJF 9 0%float 0%float [] []
        (slice_copy [mkProcess 2 0 8 0; mkProcess 1 2 6 0; mkProcess 3 4 7 0]).

(** The bursts along a list of processes never go down. *)
Definition nondecreasing_bursts (ps : list Process) : Prop :=
  ∀ i j a b, (i < j)%nat → ps !! i = Some a → ps !! j = Some b →
    BurstDuration a ≤ BurstDuration b.

(** What [SJFSchedule] keeps true of its dispatches: they were made in
    order of burst, none is longer than a process still waiting, and none
    started before its process arrived. *)
Definition SJF_ordered (tr : list (Process * Z)) (st : SJFState) : Prop :=
  nondecreasing_bursts tr.*1 ∧
  (∀ d p, d ∈ tr.*1 → p ∈ elems (s_remaining st) →
     BurstDuration d ≤ BurstDuration p) ∧
  Forall (λ d, ArrivalTime d.1 ≤ d.2) tr.

(** What [SJFPrioritySchedule] keeps true of its dispatches, whether or not
    ids are unique: each ran a process of the batch that had arrived. *)
Definition SJFP_arrived (processes : list Process) (tr : list (Process * Z))
    (st : SJFState) : Prop :=
  slice_wf (s_remaining st) ∧
  s_gantt st = dispatch_slice <$> tr ∧
  Forall (λ d, d.1 ∈ processes ∧ ArrivalTime d.1 ≤ d.2) tr ∧
  elems (s_remaining st) ⊆ processes.

(** What a round-robin run keeps true when no arithmetic overflows: the
    time elapsed and the bursts left add up to the bursts of the batch, in
    total and for every id, and every slice lasts between 1 and the
    quantum. *)
Definition RR_conserved (processes : list Process) (q : Z) (st : RRState)
    : Prop :=
  RR_queue_ok st ∧
  Forall (λ p, 0 < BurstDuration p) (rr_queue st) ∧
  0 ≤ rr_elapsed st ∧
  rr_elapsed st + burst_sum (rr_queue st) = burst_sum processes ∧
  (∀ pid, slice_time pid (rr_gantt st) + burst_of pid (rr_queue st) =
          burst_of pid processes) ∧
  Forall (λ s, 1 ≤ Stop s - Start s ≤ q) (rr_gantt st).



(** [fmt.Sprint] as far as the witnesses need it: one digit for 0 to 9. *)
Definition Sprint_digit (z : Z) : string :=
  if decide (0 ≤ z ≤ 9) then String (Ascii.ascii_of_nat (48 + Z.to_nat z)) ""
  else "??".

(** A row loads as the process [p]: its first three fields parse to the id,
    the burst and the arrival of [p], in that order, and its priority is
    the parsed fourth field when the row has exactly four fields and 0
    otherwise. *)
Definition row_loads (ParseInt : string → option Z) (row : list string)
    (p : Process) : Prop :=
  ∃ sid sburst sarrival rest,
    row = sid :: sburst :: sarrival :: rest ∧
    ParseInt sid = Some (ProcessID p) ∧
    ParseInt sburst = Some (BurstDuration p) ∧
    ParseInt sarrival = Some (ArrivalTime p) ∧
    match rest with
    | [spriority] => ParseInt spriority = Some (Priority p)
    | _ => Priority p = 0
    end.

(** [strconv.ParseInt] as far as the witnesses need it: the texts of one
    decimal digit parse, nothing else is tried. *)
Definition ParseDigit (s : string) : option Z :=
  match s with
  | String c "" =>
      let n := Ascii.nat_of_ascii c in
      if bool_decide (48 ≤ n ≤ 57)%nat then Some (Z.of_nat n - 48) else None
  | _ => None
  end.


(** The numbered lines among the events, in order. *)
Definition printed (events : list LessEvent) : list (Z * string) :=
  omap (λ e, match e with PrintLine n text => Some (n, text) | _ => None end)
       events.

(** * Properties *)

(** ** Machine integers *)

Lemma Int64_wrap_in_range z : Int64.in_range (Int64.wrap z).
Proof.
  unfold Int64.in_range, Int64.wrap, Int64.min_int, Int64.max_int.
  pose proof (Z.mod_pos_bound (z + 2 ^ 63) (2 ^ 64) ltac:(lia)). lia.
Qed.

Lemma Int64_wrap_id z : Int64.in_range z → Int64.wrap z = z.
Proof.
  unfold Int64.in_range, Int64.wrap, Int64.min_int, Int64.max_int. intros Hz.
  rewrite Z.mod_small; lia.
Qed.

Lemma Int64_sub_diag a : Int64.sub a a = 0.
Proof. unfold Int64.sub. by rewrite Z.sub_diag. Qed.

(** ** Slices *)

Lemma slice_copy_wf ps : slice_wf (slice_copy ps).
Proof. unfold slice_wf; simpl; lia. Qed.

Lemma elems_slice_copy ps : elems (slice_copy ps) = ps.
Proof. unfold elems; simpl. by rewrite firstn_all. Qed.

Lemma elems_length s : slice_wf s → length (elems s) = len s.
Proof. unfold slice_wf, elems. intros. rewrite length_take. lia. Qed.

Lemma elems_remove_at s i :
  slice_wf s → (i < len s)%nat → elems (remove_at s i) = delete i (elems s).
Proof.
  unfold slice_wf, remove_at, elems; simpl. intros Hwf Hi.
  rewrite app_assoc, take_app_length'.
  - by rewrite delete_take_drop, take_take, Nat.min_l by lia.
  - rewrite length_app, length_drop, !length_take. lia.
Qed.

Lemma remove_at_wf s i :
  slice_wf s → (i < len s)%nat → slice_wf (remove_at s i).
Proof.
  unfold slice_wf, remove_at, elems; simpl. intros Hwf Hi.
  rewrite !length_app, !length_drop, !length_take. lia.
Qed.

(** What a pointer to slot [i] sees once slot [i] has been removed: the
    element that followed it, or, when it was the last one, itself. *)
Lemma deref_remove_at s i :
  slice_wf s → (i < len s)%nat →
  deref (remove_at s i) i =
    if decide (S i < len s)%nat then deref s (S i) else deref s i.
Proof.
  unfold slice_wf, remove_at, deref, elems; simpl. intros Hwf Hi.
  rewrite lookup_total_app_r by (rewrite length_take; lia).
  rewrite length_take, Nat.min_l, Nat.sub_diag by lia.
  case_decide.
  - rewrite lookup_total_app_l by (rewrite length_drop, length_take; lia).
    rewrite lookup_total_drop, lookup_total_take_lt by lia. f_equal; lia.
  - assert (len s = S i) as Hlen by lia.
    rewrite Hlen, drop_ge by (rewrite length_take; lia). simpl.
    rewrite lookup_total_drop. f_equal; lia.
Qed.

(** ** FCFS: the loop *)

Lemma FCFS_loop_app i l1 l2 st :
  FCFS_loop i (l1 ++ l2) st = FCFS_loop (i + length l1) l2 (FCFS_loop i l1 st).
Proof.
  revert i st. induction l1 as [|p l1 IH]; intros i st; simpl.
  - by rewrite Nat.add_0_r.
  - rewrite IH. f_equal. lia.
Qed.

Lemma FCFS_loop_serviceTime i l st :
  f_serviceTime (FCFS_loop i l st) =
  foldl Int64.add (f_serviceTime st) (BurstDuration <$> l).
Proof. revert i st. induction l as [|p l IH]; intros i st; simpl; [done|]. by rewrite IH. Qed.

Lemma FCFS_loop_schedule_length i l st :
  length (f_schedule (FCFS_loop i l st)) = length (f_schedule st).
Proof.
  revert i st. induction l as [|p l IH]; intros i st; simpl; [done|].
  rewrite IH. simpl. by rewrite length_insert.
Qed.

Lemma FCFS_loop_schedule_before i l st j :
  (j < i)%nat → f_schedule (FCFS_loop i l st) !! j = f_schedule st !! j.
Proof.
  revert i st. induction l as [|p l IH]; intros i st Hj; simpl; [done|].
  rewrite IH by lia. simpl. apply list_lookup_insert_ne. lia.
Qed.

Lemma FCFS_loop_gantt_length i l st :
  length (f_gantt (FCFS_loop i l st)) = (length (f_gantt st) + length l)%nat.
Proof.
  revert i st. induction l as [|p l IH]; intros i st; simpl; [lia|].
  rewrite IH. simpl. rewrite length_app. simpl. lia.
Qed.

(** The row written for the process at index [i]: it is the row that the
    body computes from the state reached after the first [i] processes. *)
Lemma FCFS_row_at title processes i p :
  processes !! i = Some p →
  r_rows (FCFSSchedule title processes).2 !! i =
    f_schedule (FCFS_body i p (FCFS_loop 0 (take i processes)
                                 (FCFS_init processes))) !! i.
Proof.
  intros Hp. pose proof (lookup_lt_Some _ _ _ Hp) as Hlt.
  unfold FCFSSchedule; simpl. generalize (FCFS_init processes); intros st0.
  replace (FCFS_loop 0 processes st0)
    with (FCFS_loop 0 (take i processes ++ p :: drop (S i) processes) st0)
    by (by rewrite take_drop_middle).
  rewrite FCFS_loop_app. simpl.
  rewrite length_take, Nat.min_l by lia.
  by rewrite FCFS_loop_schedule_before by lia.
Qed.

(** ** FCFS: the wait column *)

Lemma serviceTimeSoFar_in_range processes i :
  Int64.in_range (serviceTimeSoFar processes i).
Proof.
  unfold serviceTimeSoFar.
  assert (∀ l acc, Int64.in_range acc → Int64.in_range (foldl Int64.add acc l))
    as Hfold.
  { induction l as [|x l IH]; intros acc Hacc; simpl; [done|].
    apply IH, Int64_wrap_in_range. }
  apply Hfold. unfold Int64.in_range, Int64.min_int, Int64.max_int. lia.
Qed.

(** C1 (as the code has it).  For every process that arrives after time 0,
    the wait that [FCFSSchedule] writes in its row is the running sum of the
    bursts of the processes before it minus its arrival time, in [int64]
    arithmetic and without a lower bound of 0; it is
    [max(0, serviceTimeSoFar - arrivalTime)] when the process has arrived by
    then. *)
Theorem FCFS_wait_of_late_arrival (title : string) (processes : list Process)
    (i : nat) (p : Process) :
  processes !! i = Some p →
  0 < ArrivalTime p →
  column 4 (r_rows (FCFSSchedule title processes).2) !! i =
    Some (Some (CInt (Int64.sub (serviceTimeSoFar processes i) (ArrivalTime p)))) ∧
  (ArrivalTime p ≤ serviceTimeSoFar processes i →
   Int64.sub (serviceTimeSoFar processes i) (ArrivalTime p) =
     Z.max 0 (serviceTimeSoFar processes i - ArrivalTime p)).
Proof.
  intros Hp Harr. pose proof (lookup_lt_Some _ _ _ Hp) as Hlt. split.
  - unfold column. rewrite list_lookup_fmap, (FCFS_row_at _ _ _ _ Hp).
    unfold FCFS_body at 1; simpl.
    rewrite list_lookup_insert_eq
      by (rewrite FCFS_loop_schedule_length; simpl; by rewrite length_replicate).
    simpl. apply Z.ltb_lt in Harr as ->.
    by rewrite FCFS_loop_serviceTime.
  - intros Hle. pose proof (serviceTimeSoFar_in_range processes i) as Hr.
    unfold Int64.sub. rewrite Int64_wrap_id; [lia|].
    unfold Int64.in_range, Int64.min_int, Int64.max_int in *. lia.
Qed.

Lemma FCFS_wait_of_late_arrival_witness :
  column 4 (r_rows (FCFSSchedule "" batch_late_arrivals).2) !! 1%nat =
    Some (Some (CInt (Int64.sub (serviceTimeSoFar batch_late_arrivals 1) 2))) ∧
  (2 ≤ serviceTimeSoFar batch_late_arrivals 1 →
   Int64.sub (serviceTimeSoFar batch_late_arrivals 1) 2 =
     Z.max 0 (serviceTimeSoFar batch_late_arrivals 1 - 2)).
Proof.
  apply (FCFS_wait_of_late_arrival "" batch_late_arrivals 1 (mkProcess 2 2 3 0));
    [reflexivity | simpl; lia].
Defined.

(** C1 as stated fails on the textbook batch: every wait is 0 and so is the
    average, because a process that arrives at time 0 keeps the wait of the
    process before it.  It also fails for a first process that arrives at
    time 1: its wait is -1, not [max(0, 0 - 1)]. *)
Lemma FCFS_batch_24_3_3_waits :
  let r := (FCFSSchedule "" batch_24_3_3).2 in
  column 4 (r_rows r) = [Some (CInt 0); Some (CInt 0); Some (CInt 0)] ∧
  r_wait r = 0%float ∧
  column 4 (r_rows r) ≠ [Some (CInt 0); Some (CInt 24); Some (CInt 27)] ∧
  PrimFloat.eqb (r_wait r) 17%float = false ∧
  column 4 (r_rows r) !! 1%nat ≠
    Some (Some (CInt (Z.max 0 (serviceTimeSoFar batch_24_3_3 1 - 0)))) ∧
  column 4 (r_rows (FCFSSchedule "" batch_late_arrivals).2) !! 0%nat =
    Some (Some (CInt (-1))) ∧
  column 4 (r_rows (FCFSSchedule "" batch_late_arrivals).2) !! 0%nat ≠
    Some (Some (CInt (Z.max 0 (serviceTimeSoFar batch_late_arrivals 0 - 1)))).
Proof. vm_compute. repeat split; congruence. Qed.

(** ** SJF: the selection and the loop *)

Lemma SJF_shortestIndex_upto rem k :
  (0 < length rem)%nat → (k ≤ length rem)%nat →
  (foldl (SJF_pick rem) 0%nat (seq 0 k) < length rem)%nat.
Proof.
  intros Hpos. induction k as [|k IH]; intros Hk; [done|].
  rewrite seq_S, foldl_app; simpl. unfold SJF_pick at 1. case_match; lia.
Qed.

Lemma SJF_shortestIndex_lt rem :
  (0 < length rem)%nat → (SJF_shortestIndex rem < length rem)%nat.
Proof. intros. by apply SJF_shortestIndex_upto. Qed.

Lemma SJF_shortestIndex_lt_len s :
  slice_wf s → (0 < len s)%nat → (SJF_shortestIndex (elems s) < len s)%nat.
Proof.
  intros Hwf Hpos. pose proof (SJF_shortestIndex_lt (elems s)) as Hlt.
  rewrite elems_length in Hlt by done. by apply Hlt.
Qed.

Lemma deref_elems s i :
  slice_wf s → (i < len s)%nat → elems s !! i = Some (deref s i).
Proof.
  intros Hwf Hi. unfold elems, deref.
  rewrite lookup_take_lt by done.
  apply list_lookup_lookup_total_lt. unfold slice_wf in Hwf. lia.
Qed.

Lemma SJF_body_wf st :
  slice_wf (s_remaining st) → (0 < len (s_remaining st))%nat →
  slice_wf (s_remaining (SJF_body st)).
Proof. intros. apply remove_at_wf; [done|]. by apply SJF_shortestIndex_lt_len. Qed.

(** Induction over the iterations of the SJF loop. *)
Lemma SJF_loop_ind (P : SJFState → Prop) :
  (∀ st, P st → (0 < len (s_remaining st))%nat → P (SJF_body st)) →
  ∀ fuel st st', P st → SJF_loop fuel st = Some st' →
    P st' ∧ len (s_remaining st') = 0%nat.
Proof.
  intros Hstep. induction fuel as [|fuel IH]; intros st st' HP; simpl;
    case_bool_decide as Hlen; intros Hrun; simplify_eq;
    try (split; [done|lia]).
  eapply IH; [|done]. by apply Hstep.
Qed.

(** The working set loses one process per iteration, so as many iterations
    as there are processes empty it. *)
Lemma SJF_loop_terminates fuel st :
  (len (s_remaining st) ≤ fuel)%nat → is_Some (SJF_loop fuel st).
Proof.
  revert st. induction fuel as [|fuel IH]; intros st Hlen; simpl;
    case_bool_decide; try done; try lia.
  apply IH. simpl. lia.
Qed.

(** ** SJF and SJF-Priority: what is emitted per dispatch *)

Lemma dispatched_init processes : dispatched processes [] (SJF_init processes).
Proof.
  repeat split; simpl.
  - apply slice_copy_wf.
  - by rewrite app_nil_r.
  - by rewrite elems_slice_copy.
Qed.

Lemma dispatched_SJF_body processes tr st :
  dispatched processes tr st → (0 < len (s_remaining st))%nat →
  ∃ d, dispatched processes (tr ++ [d]) (SJF_body st).
Proof.
  intros (Hwf & Hg & Hs & Hperm) Hpos.
  pose proof (SJF_shortestIndex_lt_len _ Hwf Hpos) as Hlt.
  pose proof (deref_elems _ _ Hwf Hlt) as Hsh.
  set (si := SJF_shortestIndex (elems (s_remaining st))) in *.
  set (shortest := deref (s_remaining st) si) in *.
  exists (shortest,
          if s_currTime st <? ArrivalTime shortest then ArrivalTime shortest
          else s_currTime st).
  repeat split; simpl.
  - by apply remove_at_wf.
  - by rewrite Hg, fmap_app.
  - by rewrite Hs, fmap_app, app_assoc.
  - fold si. rewrite elems_remove_at by done.
    rewrite fmap_app; simpl. rewrite <- app_assoc; simpl.
    rewrite <- Hperm. apply Permutation_app_head.
    symmetry. by apply delete_Permutation.
Qed.

Lemma SJF_loop_dispatched processes fuel st :
  SJF_loop fuel (SJF_init processes) = Some st →
  ∃ tr, dispatched processes tr st ∧ tr.*1 ≡ₚ processes.
Proof.
  intros Hrun.
  destruct (SJF_loop_ind (λ st, ∃ tr, dispatched processes tr st)) 
    with (fuel := fuel) (st := SJF_init processes) (st' := st)
    as [[tr Htr] Hlen]; [| |done|].
  - intros st0 [tr Htr] Hpos.
    destruct (dispatched_SJF_body _ _ _ Htr Hpos) as [d Hd]. by eexists.
  - exists []. apply dispatched_init.
  - exists tr. split; [done|].
    destruct Htr as (Hwf & _ & _ & Hperm).
    assert (elems st.(s_remaining) = []) as Hnil.
    { apply length_zero_iff_nil. by rewrite elems_length. }
    by rewrite Hnil, app_nil_r in Hperm.
Qed.

(** ** SJF-Priority: selection, idle skip, removal *)

Lemma SJFP_select_upto rem t k :
  match foldl (SJFP_pick rem t) None (seq 0 k) with
  | Some i => (i < k)%nat ∧ ArrivalTime (rem !!! i) ≤ t
  | None => ∀ j, (j < k)%nat → t < ArrivalTime (rem !!! j)
  end.
Proof.
  induction k as [|k IH]; [simpl; intros; lia|].
  rewrite seq_S, foldl_app; simpl.
  destruct (foldl (SJFP_pick rem t) None (seq 0 k)) as [i|];
    unfold SJFP_pick; destruct (Z.leb_spec (ArrivalTime (rem !!! k)) t).
  - destruct IH. destruct (_ || _); split; lia.
  - destruct IH. split; lia.
  - split; lia.
  - intros j Hj. destruct (decide (j = k)) as [->|]; [lia|]. apply IH; lia.
Qed.

Lemma SJFP_select_Some rem t i :
  SJFP_select rem t = Some i →
  (i < length rem)%nat ∧ ArrivalTime (rem !!! i) ≤ t.
Proof.
  unfold SJFP_select. intros Hsel.
  pose proof (SJFP_select_upto rem t (length rem)) as H. by rewrite Hsel in H.
Qed.

Lemma SJFP_select_None rem t :
  SJFP_select rem t = None → Forall (λ p, t < ArrivalTime p) rem.
Proof.
  unfold SJFP_select. intros Hsel.
  pose proof (SJFP_select_upto rem t (length rem)) as H. rewrite Hsel in H.
  apply Forall_lookup_2. intros j p Hj.
  rewrite <- (list_lookup_total_correct _ _ _ Hj).
  apply H. by eapply lookup_lt_Some.
Qed.

(** The idle skip moves the clock to the least arrival among the remaining
    processes that lie after it. *)
Lemma SJFP_nextArrival_fold t l acc :
  let next :=
    foldl (λ nextArrivalTime process,
             if (t <? ArrivalTime process)
                && (ArrivalTime process <? nextArrivalTime)
             then ArrivalTime process else nextArrivalTime) acc l in
  (next = acc ∨ ∃ p, p ∈ l ∧ next = ArrivalTime p) ∧
  next ≤ acc ∧
  Forall (λ p, t < ArrivalTime p → next ≤ ArrivalTime p) l.
Proof.
  revert acc. induction l as [|p l IH]; intros acc; simpl.
  - repeat split; [by left|lia|constructor].
  - set (acc' := if (t <? ArrivalTime p) && (ArrivalTime p <? acc)
                 then ArrivalTime p else acc).
    destruct (IH acc') as (Hin & Hle & Hall).
    assert (acc' ≤ acc ∧ (t < ArrivalTime p → acc' ≤ ArrivalTime p) ∧
            (acc' = acc ∨ acc' = ArrivalTime p)) as (? & ? & Hacc').
    { unfold acc'. destruct (Z.ltb_spec t (ArrivalTime p));
        destruct (Z.ltb_spec (ArrivalTime p) acc); simpl; lia. }
    repeat split.
    + destruct Hin as [->|(p' & Hp' & ->)].
      * destruct Hacc' as [->| ->]; [by left|]. right. exists p.
        split; [left|done].
      * right. exists p'. split; [by right|done].
    + lia.
    + constructor; [lia|done].
Qed.

Lemma SJFP_nextArrival_spec rem t :
  rem ≠ [] → Forall (λ p, t < ArrivalTime p) rem →
  let next := SJFP_nextArrival rem t in
  t < next ∧ (∃ p, p ∈ rem ∧ next = ArrivalTime p) ∧
  Forall (λ p, next ≤ ArrivalTime p) rem.
Proof.
  intros Hne Hall. unfold SJFP_nextArrival.
  destruct (SJFP_nextArrival_fold t rem (ArrivalTime (rem !!! 0%nat)))
    as (Hin & Hle & Hmin).
  destruct rem as [|p0 rem0]; [done|]. simpl in Hin, Hle.
  set (next := foldl _ _ _) in *. simpl.
  assert (∃ p, p ∈ p0 :: rem0 ∧ next = ArrivalTime p) as Hex.
  { destruct Hin as [->|Hin]; [|done]. exists p0. split; [left|done]. }
  split; [|split; [done|]].
  - destruct Hex as (p & Hp & ->).
    by eapply (proj1 (Forall_forall _ _) Hall).
  - rewrite Forall_forall in *. intros p Hp. apply Hmin; [done|]. by apply Hall.
Qed.

(** After an idle skip some process is eligible. *)
Lemma SJFP_select_after_idle rem t :
  rem ≠ [] → SJFP_select rem t = None →
  is_Some (SJFP_select rem (SJFP_nextArrival rem t)).
Proof.
  intros Hne Hnone. apply SJFP_select_None in Hnone.
  destruct (SJFP_nextArrival_spec rem t Hne Hnone) as (_ & (p & Hp & Hnext) & _).
  destruct (SJFP_select rem (SJFP_nextArrival rem t)) eqn:Hsel; [done|].
  apply SJFP_select_None in Hsel. rewrite Forall_forall in Hsel.
  specialize (Hsel p Hp). lia.
Qed.

(** The removal loop always finds a slot: the one [shortest] points to
    carries the id it looks for. *)
Lemma SJFP_remove_found s i :
  slice_wf s → (i < len s)%nat →
  ∃ j, (j ≤ i)%nat ∧ SJFP_remove s (ProcessID (deref s i)) = remove_at s j.
Proof.
  intros Hwf Hi. pose proof (deref_elems _ _ Hwf Hi) as Hsh.
  unfold SJFP_remove.
  destruct (list_find _ _) as [[j x]|] eqn:Hfind.
  - apply list_find_Some in Hfind as (Hj & Hx & Hfirst).
    exists j. split; [|done].
    destruct (decide (j ≤ i)%nat); [done|].
    exfalso. eapply (Hfirst i); [done|lia|done].
  - exfalso. apply list_find_None in Hfind. rewrite Forall_forall in Hfind.
    eapply Hfind; [|done]. by eapply list_elem_of_lookup_2.
Qed.

(** With unique ids the slot removed is the slot dispatched. *)
Lemma SJFP_remove_unique s i :
  slice_wf s → (i < len s)%nat → NoDup (ProcessID <$> elems s) →
  SJFP_remove s (ProcessID (deref s i)) = remove_at s i.
Proof.
  intros Hwf Hi Hnd. pose proof (deref_elems _ _ Hwf Hi) as Hsh.
  unfold SJFP_remove.
  destruct (list_find _ _) as [[j x]|] eqn:Hfind.
  - apply list_find_Some in Hfind as (Hj & Hx & _).
    f_equal. eapply NoDup_lookup; [done| |].
    + rewrite list_lookup_fmap, Hj. simpl. by rewrite Hx.
    + by rewrite list_lookup_fmap, Hsh.
  - exfalso. apply list_find_None in Hfind. rewrite Forall_forall in Hfind.
    eapply Hfind; [|done]. by eapply list_elem_of_lookup_2.
Qed.

(** ** SJF-Priority: the loop *)

Lemma SJFP_loop_ind (P : SJFState → Prop) :
  (∀ st, P st → (0 < len (s_remaining st))%nat → P (SJFP_body st)) →
  ∀ fuel st st', P st → SJFP_loop fuel st = Some st' →
    P st' ∧ len (s_remaining st') = 0%nat.
Proof.
  intros Hstep. induction fuel as [|fuel IH]; intros st st' HP; simpl;
    case_bool_decide as Hlen; intros Hrun; simplify_eq;
    try (split; [done|lia]).
  eapply IH; [|done]. by apply Hstep.
Qed.

(** An iteration either dispatches a process, which leaves the working set
    one process shorter, or idles, which leaves the working set as it is and
    moves the clock forward to the arrival of one of its processes. *)
Lemma SJFP_body_progress st :
  slice_wf (s_remaining st) → (0 < len (s_remaining st))%nat →
  (slice_wf (s_remaining (SJFP_body st)) ∧
   S (len (s_remaining (SJFP_body st))) = len (s_remaining st)) ∨
  (s_remaining (SJFP_body st) = s_remaining st ∧
   s_currTime st < s_currTime (SJFP_body st) ∧
   (∃ p, p ∈ elems (s_remaining st) ∧
         s_currTime (SJFP_body st) = ArrivalTime p) ∧
   is_Some (SJFP_select (elems (s_remaining st)) (s_currTime (SJFP_body st)))).
Proof.
  intros Hwf Hpos. unfold SJFP_body.
  assert (elems (s_remaining st) ≠ []) as Hne.
  { intros Hnil. apply (f_equal length) in Hnil.
    rewrite elems_length in Hnil by done. simpl in Hnil. lia. }
  destruct (SJFP_select _ _) as [i|] eqn:Hsel; simpl.
  - left. apply SJFP_select_Some in Hsel as [Hi _].
    rewrite elems_length in Hi by done.
    destruct (SJFP_remove_found _ _ Hwf Hi) as (j & Hj & ->).
    split; [apply remove_at_wf; [done|lia]|]. simpl. lia.
  - right. pose proof (SJFP_select_after_idle _ _ Hne Hsel) as Hnext.
    apply SJFP_select_None in Hsel.
    destruct (SJFP_nextArrival_spec _ _ Hne Hsel) as (Hlt & Hex & _).
    done.
Qed.

Lemma SJFP_body_measure st :
  slice_wf (s_remaining st) → (0 < len (s_remaining st))%nat →
  slice_wf (s_remaining (SJFP_body st)) ∧
  (SJFP_measure (SJFP_body st) < SJFP_measure st)%nat.
Proof.
  intros Hwf Hpos.
  destruct (SJFP_body_progress st Hwf Hpos)
    as [[Hwf' Hlen]|(Hrem & _ & _ & Hsome)].
  - split; [done|]. unfold SJFP_measure. rewrite <- Hlen.
    repeat case_match; lia.
  - split; [by rewrite Hrem|]. unfold SJFP_measure. rewrite Hrem.
    destruct Hsome as [i ->].
    assert (SJFP_select (elems (s_remaining st)) (s_currTime st) = None) as ->.
    { destruct (SJFP_select (elems (s_remaining st)) (s_currTime st)) eqn:Hsel;
        [|done].
      unfold SJFP_body in Hrem. rewrite Hsel in Hrem. simpl in Hrem.
      apply SJFP_select_Some in Hsel as [Hi _].
      rewrite elems_length in Hi by done.
      destruct (SJFP_remove_found _ _ Hwf Hi) as (j & Hj & Hrm).
      rewrite Hrm in Hrem. apply (f_equal len) in Hrem. simpl in Hrem. lia. }
    lia.
Qed.

Lemma SJFP_loop_terminates fuel st :
  slice_wf (s_remaining st) → (SJFP_measure st ≤ fuel)%nat →
  is_Some (SJFP_loop fuel st).
Proof.
  revert st. induction fuel as [|fuel IH]; intros st Hwf Hm; simpl;
    case_bool_decide as Hpos; try done.
  - destruct (SJFP_body_measure st Hwf Hpos) as [_ Hlt]. lia.
  - destruct (SJFP_body_measure st Hwf Hpos) as [Hwf' Hlt]. apply IH; [done|lia].
Qed.

Lemma SJFP_measure_init processes :
  (SJFP_measure (SJF_init processes) ≤ 2 * length processes)%nat.
Proof. unfold SJFP_measure; simpl. lia. Qed.

Lemma dispatched_NoDup processes tr st :
  dispatched processes tr st → NoDup (ProcessID <$> processes) →
  NoDup (ProcessID <$> elems (s_remaining st)).
Proof.
  intros (_ & _ & _ & Hperm) Hnd. rewrite <- Hperm, fmap_app in Hnd.
  by apply NoDup_app in Hnd as (_ & _ & ?).
Qed.

Lemma dispatched_SJFP_body processes tr st :
  NoDup (ProcessID <$> processes) →
  dispatched processes tr st → (0 < len (s_remaining st))%nat →
  ∃ tr', dispatched processes tr' (SJFP_body st).
Proof.
  intros Hnd Htr Hpos. pose proof (dispatched_NoDup _ _ _ Htr Hnd) as Hnd'.
  destruct Htr as (Hwf & Hg & Hs & Hperm). unfold SJFP_body.
  destruct (SJFP_select _ _) as [i|] eqn:Hsel.
  - apply SJFP_select_Some in Hsel as [Hi _].
    rewrite elems_length in Hi by done.
    pose proof (deref_elems _ _ Hwf Hi) as Hsh.
    rewrite (SJFP_remove_unique _ _ Hwf Hi Hnd').
    exists (tr ++ [(deref (s_remaining st) i, s_currTime st)]).
    repeat split; simpl.
    + by apply remove_at_wf.
    + by rewrite Hg, fmap_app.
    + by rewrite Hs, fmap_app, app_assoc.
    + rewrite elems_remove_at by done.
      rewrite fmap_app; simpl. rewrite <- app_assoc; simpl.
      rewrite <- Hperm. apply Permutation_app_head.
      symmetry. by apply delete_Permutation.
  - by exists tr.
Qed.

Lemma SJFP_loop_dispatched processes fuel st :
  NoDup (ProcessID <$> processes) →
  SJFP_loop fuel (SJF_init processes) = Some st →
  ∃ tr, dispatched processes tr st ∧ tr.*1 ≡ₚ processes.
Proof.
  intros Hnd Hrun.
  destruct (SJFP_loop_ind (λ st, ∃ tr, dispatched processes tr st))
    with (fuel := fuel) (st := SJF_init processes) (st' := st)
    as [[tr Htr] Hlen]; [| |done|].
  - intros st0 [tr Htr] Hpos. by eapply dispatched_SJFP_body.
  - exists []. apply dispatched_init.
  - exists tr. split; [done|].
    destruct Htr as (Hwf & _ & _ & Hperm).
    assert (elems st.(s_remaining) = []) as Hnil.
    { apply length_zero_iff_nil. by rewrite elems_length. }
    by rewrite Hnil, app_nil_r in Hperm.
Qed.

(** ** Round-robin: a turn of the code is a turn of the specification *)

Lemma min_Zmin a b : min a b = Z.min a b.
Proof. unfold min. destruct (Z.ltb_spec a b); lia. Qed.

Lemma RR_body_spec q st :
  1 ≤ q → RR_queue_ok st → rr_queue st ≠ [] →
  RR_step_spec q st (RR_body q st).
Proof.
  intros Hq Hok Hne. unfold RR_queue_ok in Hok.
  destruct (rr_queue st) as [|p queue] eqn:Hqueue; [done|].
  apply Forall_cons in Hok as [Hp _].
  unfold RR_body. rewrite Hqueue. unfold burst_sub; simpl.
  rewrite min_Zmin. set (ran := Z.min (BurstDuration p) q).
  unfold Int64.in_range, Int64.min_int, Int64.max_int in Hp.
  destruct (decide (BurstDuration p ≤ q)) as [Hle|Hgt].
  - assert (ran = BurstDuration p) as Hran by lia.
    clearbody ran. subst ran. rewrite Int64_sub_diag. simpl.
    by eapply (RR_step_complete q st p queue (BurstDuration p)); [|lia|..|lia| |].
  - assert (Int64.sub (BurstDuration p) ran = BurstDuration p - ran) as ->.
    { apply Int64_wrap_id.
      unfold Int64.in_range, Int64.min_int, Int64.max_int. lia. }
    assert ((0 <? BurstDuration p - ran) = true) as -> by (apply Z.ltb_lt; lia).
    by eapply (RR_step_requeue q st p queue ran); [| | |lia].
Qed.

(** ** Round-robin: the loop *)

Lemma RR_loop_ind (q : Z) (P : RRState → Prop) :
  (∀ st, P st → rr_queue st ≠ [] → P (RR_body q st)) →
  ∀ fuel st st', P st → RR_loop fuel q st = Some st' →
    P st' ∧ rr_queue st' = [].
Proof.
  intros Hstep. induction fuel as [|fuel IH]; intros st st' HP; simpl;
    destruct (rr_queue st) eqn:Hqueue; intros Hrun; simplify_eq;
    try (split; done).
  eapply IH; [|done]. apply Hstep; [done|]. by rewrite Hqueue.
Qed.

(** A turn keeps the bursts in range and lowers the measure of the queue:
    the head either leaves it or comes back with a smaller positive burst. *)
Lemma RR_step_spec_measure q st st' :
  1 ≤ q → RR_queue_ok st → RR_step_spec q st st' →
  RR_queue_ok st' ∧ (RR_measure (rr_queue st') < RR_measure (rr_queue st))%nat.
Proof.
  unfold RR_queue_ok, RR_measure.
  intros Hq Hok Hstep. inversion Hstep as
    [? p queue ran elapsed Hqueue Hran Hel Hpos
    |? p queue ran elapsed turnaround wait Hqueue Hran Hel Hzero]; subst; simpl.
  - rewrite Hqueue in *. apply Forall_cons in Hok as [Hp Hrest].
    unfold Int64.in_range, Int64.min_int, Int64.max_int in Hp.
    split.
    + apply Forall_app. split; [done|]. apply Forall_singleton. simpl.
      unfold Int64.in_range, Int64.min_int, Int64.max_int. lia.
    + rewrite sum_list_with_app. simpl. unfold RR_weight at 2 3. simpl. lia.
  - rewrite Hqueue in *. apply Forall_cons in Hok as [Hp Hrest].
    split; [done|]. simpl. unfold RR_weight at 2. lia.
Qed.

Lemma RR_body_measure q st :
  1 ≤ q → RR_queue_ok st → rr_queue st ≠ [] →
  RR_queue_ok (RR_body q st) ∧
  (RR_measure (rr_queue (RR_body q st)) < RR_measure (rr_queue st))%nat.
Proof. intros. by apply (RR_step_spec_measure q), RR_body_spec. Qed.

Lemma RR_loop_terminates q fuel st :
  1 ≤ q → RR_queue_ok st → (RR_measure (rr_queue st) ≤ fuel)%nat →
  is_Some (RR_loop fuel q st).
Proof.
  intros Hq. revert st. induction fuel as [|fuel IH]; intros st Hok Hm; simpl;
    destruct (rr_queue st) eqn:Hqueue; try done.
  - exfalso. unfold RR_measure in Hm. simpl in Hm.
    unfold RR_weight in Hm. lia.
  - destruct (RR_body_measure q st) as [Hok' Hlt]; [done..|by rewrite Hqueue|].
    apply IH; [done|]. rewrite Hqueue in Hlt. lia.
Qed.

(** The run of the loop is a chain of turns. *)
Lemma RR_loop_steps q fuel st st' :
  1 ≤ q → RR_queue_ok st → RR_loop fuel q st = Some st' →
  rtc (RR_step_spec q) st st' ∧ rr_queue st' = [].
Proof.
  intros Hq. revert st. induction fuel as [|fuel IH]; intros st Hok; simpl;
    destruct (rr_queue st) eqn:Hqueue; intros Hrun; simplify_eq;
    try (split; [apply rtc_refl|done]).
  assert (rr_queue st ≠ []) as Hne by (by rewrite Hqueue).
  destruct (RR_body_measure q st Hq Hok Hne) as [Hok' _].
  destruct (IH _ Hok' Hrun) as [Hsteps Hnil]. split; [|done].
  eapply rtc_l; [|done]. by apply RR_body_spec.
Qed.

Lemma RR_init_ok processes :
  Forall int64_process processes → RR_queue_ok (RR_init processes).
Proof.
  unfold RR_queue_ok; simpl. intros Hall.
  eapply Forall_impl; [done|]. by intros p (_ & _ & ? & _).
Qed.

(** ** The sorting contract *)

Lemma insert_back_Permutation less x r : insert_back less x r ≡ₚ x :: r.
Proof.
  induction r as [|y r IH]; simpl; [done|].
  case_match; [|done]. rewrite IH. apply Permutation_swap.
Qed.

Lemma insertionSort_permutes : permutes insertionSort.
Proof.
  intros less l. unfold insertionSort. rewrite reverse_Permutation.
  assert (∀ acc, foldl (λ acc x, insert_back less x acc) acc l ≡ₚ acc ++ l)
    as Hfold; [|apply (Hfold [])].
  induction l as [|x l IH]; intros acc; simpl; [by rewrite app_nil_r|].
  rewrite IH, insert_back_Permutation. simpl. apply Permutation_middle.
Qed.

(** ** Concrete runs *)

(** C2 (the code departs from it).  On a batch of one process the three
    working-set schedulers hand the sink two rows, an empty one and the
    metrics row; [FCFSSchedule] hands it one. *)
Theorem working_set_rows_single_process :
  r_rows (FCFSSchedule "t" batch_single).2 =
    [[CInt 1; CInt 0; CInt 5; CInt 0; CInt 0; CInt 5; CInt 5]] ∧
  (r_rows ∘ snd) <$> SJFSchedule insertionSort 1 "t" batch_single =
    Some [[]; [CInt 1; CInt 0; CInt 5; CInt 0; CFloat2 0; CFloat2 5; CInt 5]] ∧
  (r_rows ∘ snd) <$> SJFPrioritySchedule insertionSort 2 "t" batch_single =
    Some [[]; [CInt 1; CInt 0; CInt 5; CInt 0; CFloat2 0; CFloat2 5; CInt 5]] ∧
  (r_rows ∘ snd) <$> RRSchedule insertionSort 3 "t" batch_single 2 =
    Some [[]; [CInt 1; CInt 0; CInt 0; CInt 0; CFloat2 10; CFloat2 5; CInt 5]].
Proof. vm_compute. done. Qed.

(** C4 (the code departs from it).  On the specification's SJF batch the
    process with id 1 runs over [9, 15], yet the next slice starts at 16:
    the clock moved by 7, the burst of the process that slid into the slot
    of the one just removed. *)
Theorem SJFSchedule_batch_sjf_gantt :
  (r_gantt ∘ snd) <$> SJFSchedule insertionSort 4 "t" batch_sjf =
    Some [mkTimeSlice 4 6 9; mkTimeSlice 1 9 15; mkTimeSlice 3 16 23;
          mkTimeSlice 2 23 31].
Proof. vm_compute. done. Qed.

(** C5 (the code departs from it).  Process 1 runs over [0, 2] and process 2
    starts at 5: the clock moved by the burst of process 2, which slid into
    the slot of process 1 when that was removed. *)
Theorem SJFPrioritySchedule_batch_pair_gantt :
  (r_gantt ∘ snd) <$> SJFPrioritySchedule insertionSort 4 "t" batch_pair =
    Some [mkTimeSlice 1 0 2; mkTimeSlice 2 5 10].
Proof. vm_compute. done. Qed.

(** C7 (the code departs from it).  On the textbook batch [FCFSSchedule]
    starts every slice at 0, so the timeline gives process 2 the time 27 and
    process 3 the time 30, while each has a burst of 3. *)
Theorem FCFS_batch_24_3_3_slice_time :
  let gantt := r_gantt (FCFSSchedule "t" batch_24_3_3).2 in
  gantt = [mkTimeSlice 1 0 24; mkTimeSlice 2 0 27; mkTimeSlice 3 0 30] ∧
  slice_time 1 gantt = 24 ∧ slice_time 2 gantt = 27 ∧ slice_time 3 gantt = 30.
Proof. vm_compute. done. Qed.

(** ** The schedulers return *)

Lemma SJFSchedule_run sort_Slice fuel title processes :
  permutes sort_Slice → (length processes ≤ fuel)%nat →
  ∃ st, SJF_loop fuel (SJF_init (sort_Slice less_arrival processes)) = Some st ∧
        SJFSchedule sort_Slice fuel title processes =
          Some (sort_Slice less_arrival processes,
                SJF_report title (sort_Slice less_arrival processes) st).
Proof.
  intros Hperm Hfuel.
  destruct (SJF_loop_terminates fuel
              (SJF_init (sort_Slice less_arrival processes))) as [st Hst].
  { simpl. by rewrite (Permutation_length (Hperm _ _)). }
  exists st. split; [done|]. unfold SJFSchedule. by rewrite Hst.
Qed.

Lemma SJFPrioritySchedule_run sort_Slice fuel title processes :
  permutes sort_Slice → (2 * length processes ≤ fuel)%nat →
  ∃ st, SJFP_loop fuel
          (SJF_init (sort_Slice less_arrival_priority_burst processes)) = Some st ∧
        SJFPrioritySchedule sort_Slice fuel title processes =
          Some (sort_Slice less_arrival_priority_burst processes,
                SJF_report title
                  (sort_Slice less_arrival_priority_burst processes) st).
Proof.
  intros Hperm Hfuel.
  destruct (SJFP_loop_terminates fuel
              (SJF_init (sort_Slice less_arrival_priority_burst processes)))
    as [st Hst].
  { apply slice_copy_wf. }
  { etrans; [apply SJFP_measure_init|].
    by rewrite (Permutation_length (Hperm _ _)). }
  exists st. split; [done|]. unfold SJFPrioritySchedule. by rewrite Hst.
Qed.

Lemma RRSchedule_run sort_Slice fuel title processes q :
  permutes sort_Slice → 1 ≤ q → Forall int64_process processes →
  (RR_measure processes ≤ fuel)%nat →
  ∃ st, RR_loop fuel q (RR_init (sort_Slice less_arrival processes)) = Some st ∧
        RRSchedule sort_Slice fuel title processes q =
          Some (sort_Slice less_arrival processes,
                RR_report title (sort_Slice less_arrival processes) st).
Proof.
  intros Hperm Hq Hall Hfuel.
  destruct (RR_loop_terminates q fuel
              (RR_init (sort_Slice less_arrival processes))) as [st Hst].
  { done. }
  { apply RR_init_ok. by rewrite (Hperm _ _). }
  { simpl. unfold RR_measure in *. by rewrite (Hperm _ _). }
  exists st. split; [done|]. unfold RRSchedule. by rewrite Hst.
Qed.

(** ** The clock when a loop ends *)

Lemma SJF_body_last_clock st :
  slice_wf (s_remaining st) → len (s_remaining st) = 1%nat →
  clock_at_last_stop (s_gantt (SJF_body st)) (s_currTime (SJF_body st)).
Proof.
  intros Hwf Hlen. right. simpl. rewrite last_snoc. simpl. do 3 f_equal.
  assert (0 < len (s_remaining st))%nat as Hpos by lia.
  pose proof (SJF_shortestIndex_lt_len _ Hwf Hpos) as Hlt.
  rewrite deref_remove_at by done. case_decide; [lia|done].
Qed.

Lemma SJFP_body_last_clock st :
  slice_wf (s_remaining st) → len (s_remaining st) = 1%nat →
  len (s_remaining (SJFP_body st)) = 0%nat →
  clock_at_last_stop (s_gantt (SJFP_body st)) (s_currTime (SJFP_body st)).
Proof.
  intros Hwf Hlen. unfold SJFP_body.
  destruct (SJFP_select _ _) as [i|] eqn:Hsel; simpl; [|lia].
  intros _. right. rewrite last_snoc. simpl. do 3 f_equal.
  apply SJFP_select_Some in Hsel as [Hi _]. rewrite elems_length in Hi by done.
  destruct (SJFP_remove_found _ _ Hwf Hi) as (j & Hj & ->).
  assert (i = 0%nat) as -> by lia. assert (j = 0%nat) as -> by lia.
  rewrite deref_remove_at by (done || lia). case_decide; [lia|done].
Qed.

Lemma SJF_loop_last_clock fuel processes st :
  SJF_loop fuel (SJF_init processes) = Some st →
  clock_at_last_stop (s_gantt st) (s_currTime st).
Proof.
  intros Hrun.
  destruct (SJF_loop_ind
    (λ st, slice_wf (s_remaining st) ∧
           (len (s_remaining st) = 0%nat →
            clock_at_last_stop (s_gantt st) (s_currTime st))))
    with (fuel := fuel) (st := SJF_init processes) (st' := st)
    as [[_ Hclock] Hlen]; [| |done|by apply Hclock].
  - intros st0 [Hwf _] Hpos. split; [by apply SJF_body_wf|].
    intros Hlen. apply SJF_body_last_clock; [done|]. simpl in Hlen. lia.
  - split; [apply slice_copy_wf|]. by left.
Qed.

Lemma SJFP_loop_last_clock fuel processes st :
  SJFP_loop fuel (SJF_init processes) = Some st →
  clock_at_last_stop (s_gantt st) (s_currTime st).
Proof.
  intros Hrun.
  destruct (SJFP_loop_ind
    (λ st, slice_wf (s_remaining st) ∧
           (len (s_remaining st) = 0%nat →
            clock_at_last_stop (s_gantt st) (s_currTime st))))
    with (fuel := fuel) (st := SJF_init processes) (st' := st)
    as [[_ Hclock] Hlen]; [| |done|by apply Hclock].
  - intros st0 [Hwf _] Hpos.
    destruct (SJFP_body_progress st0 Hwf Hpos) as [[Hwf' Hlen]|(Hrem & _)].
    + split; [done|]. intros Hzero.
      apply SJFP_body_last_clock; [done|lia|done].
    + split; [by rewrite Hrem|]. rewrite Hrem. lia.
  - split; [apply slice_copy_wf|]. by left.
Qed.

Lemma RR_loop_last_clock q fuel processes st :
  RR_loop fuel q (RR_init processes) = Some st →
  clock_at_last_stop (rr_gantt st) (rr_elapsed st).
Proof.
  intros Hrun.
  destruct (RR_loop_ind q
    (λ st, rr_queue st = [] → clock_at_last_stop (rr_gantt st) (rr_elapsed st)))
    with (fuel := fuel) (st := RR_init processes) (st' := st)
    as [Hclock Hnil]; [| |done|by apply Hclock].
  - intros st0 _ Hne. unfold RR_body.
    destruct (rr_queue st0) as [|p queue]; [done|].
    case_match; simpl.
    + intros Hnil. by destruct queue.
    + intros _. right. by rewrite last_snoc.
  - by left.
Qed.

(** ** The caller's slice *)

Lemma SJFSchedule_slice sort_Slice fuel title processes out :
  SJFSchedule sort_Slice fuel title processes = Some out →
  out.1 = sort_Slice less_arrival processes.
Proof. unfold SJFSchedule. intros. by simplify_option_eq. Qed.

Lemma SJFPrioritySchedule_slice sort_Slice fuel title processes out :
  SJFPrioritySchedule sort_Slice fuel title processes = Some out →
  out.1 = sort_Slice less_arrival_priority_burst processes.
Proof. unfold SJFPrioritySchedule. intros. by simplify_option_eq. Qed.

Lemma RRSchedule_slice sort_Slice fuel title processes q out :
  RRSchedule sort_Slice fuel title processes q = Some out →
  out.1 = sort_Slice less_arrival processes.
Proof. unfold RRSchedule. intros. by simplify_option_eq. Qed.

Lemma main_run_slice sort_Slice fuel processes out :
  main_run sort_Slice fuel processes = Some out →
  out.1 = sort_Slice less_arrival
            (sort_Slice less_arrival_priority_burst
               (sort_Slice less_arrival processes)).
Proof.
  unfold main_run. simpl. intros H.
  destruct (SJFSchedule _ _ _ _) as [[ps2 r2]|] eqn:H2; [|done].
  apply SJFSchedule_slice in H2. simpl in *.
  destruct (SJFPrioritySchedule _ _ _ _) as [[ps3 r3]|] eqn:H3; [|done].
  apply SJFPrioritySchedule_slice in H3. simpl in *.
  destruct (RRSchedule _ _ _ _ _) as [[ps4 r4]|] eqn:H4; [|done].
  apply RRSchedule_slice in H4. simpl in *. by simplify_eq.
Qed.

(** C3 (as the code has it).  [FCFSSchedule] leaves the caller's slice
    unchanged.  [SJFSchedule], [SJFPrioritySchedule] and [RRSchedule] leave
    it as [sort.Slice] arranged it under the policy's comparison, which is a
    rearrangement of the records it held: no record is changed, added or
    lost, and the loops work on a copy.  After [main] has run the four
    policies the slice still holds the records it was loaded with. *)
Theorem schedulers_leave_slice_sorted
    (sort_Slice : (Process → Process → bool) → list Process → list Process)
    (fuel : nat) (title : string) (processes : list Process) (q : Z) :
  permutes sort_Slice →
  (FCFSSchedule title processes).1 = processes ∧
  (∀ out, SJFSchedule sort_Slice fuel title processes = Some out →
     out.1 = sort_Slice less_arrival processes ∧ out.1 ≡ₚ processes) ∧
  (∀ out, SJFPrioritySchedule sort_Slice fuel title processes = Some out →
     out.1 = sort_Slice less_arrival_priority_burst processes ∧
     out.1 ≡ₚ processes) ∧
  (∀ out, RRSchedule sort_Slice fuel title processes q = Some out →
     out.1 = sort_Slice less_arrival processes ∧ out.1 ≡ₚ processes) ∧
  (∀ out, main_run sort_Slice fuel processes = Some out →
     out.1 = sort_Slice less_arrival
               (sort_Slice less_arrival_priority_burst
                  (sort_Slice less_arrival processes)) ∧
     out.1 ≡ₚ processes).
Proof.
  intros Hperm. split; [done|].
  split; [intros out H; pose proof (SJFSchedule_slice _ _ _ _ _ H) as Hs;
          split; [done|rewrite Hs; apply Hperm]|].
  split; [intros out H; pose proof (SJFPrioritySchedule_slice _ _ _ _ _ H) as Hs;
          split; [done|rewrite Hs; apply Hperm]|].
  split; [intros out H; pose proof (RRSchedule_slice _ _ _ _ _ _ H) as Hs;
          split; [done|rewrite Hs; apply Hperm]|].
  intros out H. pose proof (main_run_slice _ _ _ _ H) as Hs.
  split; [done|]. rewrite Hs. by rewrite !(Hperm _ _).
Qed.

Lemma schedulers_leave_slice_sorted_witness :
  is_Some (main_run insertionSort 24 batch_sjf) ∧
  (∀ out, main_run insertionSort 24 batch_sjf = Some out →
     out.1 = insertionSort less_arrival
               (insertionSort less_arrival_priority_burst
                  (insertionSort less_arrival batch_sjf)) ∧
     out.1 ≡ₚ batch_sjf).
Proof.
  split; [vm_compute; eauto|].
  apply (schedulers_leave_slice_sorted insertionSort 24 "t" batch_sjf 2
           insertionSort_permutes).
Defined.

(** C3 as stated fails: [SJFSchedule] hands the caller's slice back in
    arrival order, and [main] leaves it so for the policies that follow. *)
Lemma SJFSchedule_reorders_callers_slice :
  fst <$> SJFSchedule insertionSort 4 "t" batch_sjf =
    Some [mkProcess 2 0 8 0; mkProcess 1 2 6 0; mkProcess 3 4 7 0;
          mkProcess 4 6 3 0] ∧
  fst <$> SJFSchedule insertionSort 4 "t" batch_sjf ≠ Some batch_sjf ∧
  fst <$> main_run insertionSort 24 batch_sjf ≠ Some batch_sjf.
Proof. vm_compute. repeat split; congruence. Qed.

(** ** Round-robin: the turns of a run *)

(** C6.  For a quantum of at least 1, [RRSchedule] returns when given fuel
    for the turns of the batch, and its run is a chain of turns as the
    specification words them: the head of the queue runs for
    [min(burst, q)], the slice [elapsed, elapsed + ran] is appended and
    [elapsed] advances by [ran]; the head is put back at the tail exactly
    when burst is left, and otherwise turnaround [elapsed - arrival] and
    wait [turnaround - (priority - 1) * 5] are recorded.  The chain ends
    with the queue empty. *)
Theorem RRSchedule_runs_turns
    (sort_Slice : (Process → Process → bool) → list Process → list Process)
    (fuel : nat) (title : string) (processes : list Process) (q : Z) :
  permutes sort_Slice →
  1 ≤ q →
  Forall int64_process processes →
  (RR_measure processes ≤ fuel)%nat →
  ∃ st,
    RRSchedule sort_Slice fuel title processes q =
      Some (sort_Slice less_arrival processes,
            RR_report title (sort_Slice less_arrival processes) st) ∧
    rtc (RR_step_spec q) (RR_init (sort_Slice less_arrival processes)) st ∧
    rr_queue st = [].
Proof.
  intros Hperm Hq Hall Hfuel.
  destruct (RRSchedule_run sort_Slice fuel title processes q)
    as (st & Hloop & Hrun); [done..|].
  exists st. split; [done|].
  apply (RR_loop_steps q fuel); [done| |done].
  apply RR_init_ok. by rewrite (Hperm _ _).
Qed.

Lemma Forall_int64_batch_rr : Forall int64_process batch_rr.
Proof.
  repeat constructor;
    unfold Int64.min_int, Int64.max_int; simpl; lia.
Qed.

Lemma RRSchedule_runs_turns_witness :
  ∃ st,
    RRSchedule insertionSort 8 "t" batch_rr 2 =
      Some (insertionSort less_arrival batch_rr,
            RR_report "t" (insertionSort less_arrival batch_rr) st) ∧
    rtc (RR_step_spec 2) (RR_init (insertionSort less_arrival batch_rr)) st ∧
    rr_queue st = [].
Proof.
  apply (RRSchedule_runs_turns insertionSort 8 "t" batch_rr 2
           insertionSort_permutes).
  - lia.
  - apply Forall_int64_batch_rr.
  - vm_compute. lia.
Defined.

(** ** Termination *)

Lemma RR_measure_total_burst processes :
  Forall (λ p, 0 < BurstDuration p) processes →
  RR_measure processes = total_burst processes.
Proof.
  unfold RR_measure, total_burst.
  induction 1 as [|p l Hp _ IH]; simpl; [done|].
  rewrite IH. unfold RR_weight. lia.
Qed.

Lemma RR_body_positive_head q st p queue :
  1 ≤ q → RR_queue_ok st → rr_queue st = p :: queue → 0 < BurstDuration p →
  rr_queue (RR_body q st) = queue ∨
  ∃ p', rr_queue (RR_body q st) = queue ++ [p'] ∧
        ProcessID p' = ProcessID p ∧
        0 < BurstDuration p' < BurstDuration p.
Proof.
  intros Hq Hok Hqueue Hpos.
  assert (rr_queue st ≠ []) as Hne by (by rewrite Hqueue).
  pose proof (RR_body_spec q st Hq Hok Hne) as Hstep.
  inversion Hstep as [? p0 queue0 ran elapsed Hq0 Hran Hel Hleft
                     |? p0 queue0 ran elapsed t w Hq0]; simpl;
    rewrite Hqueue in Hq0; simplify_eq.
  - right. eexists. split; [done|]. simpl. lia.
  - by left.
Qed.

(** C8.  With every burst positive and a quantum of at least 1 the four
    loops end.  FCFS runs once per process.  SJF returns on fuel for one
    iteration per process, each of which takes a process out of the working
    set.  SJF-Priority returns on fuel for two iterations per process: an
    iteration takes a process out of the working set, or else leaves the
    set alone and moves the clock forward to the arrival of one of its
    processes.  Round-robin returns on fuel for the total burst: a turn
    either retires the head of the queue or puts it back with a smaller,
    still positive burst. *)
Theorem scheduling_loops_terminate
    (sort_Slice : (Process → Process → bool) → list Process → list Process)
    (title : string) (processes : list Process) (q : Z) :
  permutes sort_Slice →
  Forall int64_process processes →
  Forall (λ p, 0 < BurstDuration p) processes →
  1 ≤ q →
  length (r_gantt (FCFSSchedule title processes).2) = length processes ∧
  (∀ fuel, (length processes ≤ fuel)%nat →
     is_Some (SJFSchedule sort_Slice fuel title processes)) ∧
  (∀ st, (0 < len (s_remaining st))%nat →
     S (len (s_remaining (SJF_body st))) = len (s_remaining st)) ∧
  (∀ fuel, (2 * length processes ≤ fuel)%nat →
     is_Some (SJFPrioritySchedule sort_Slice fuel title processes)) ∧
  (∀ st, slice_wf (s_remaining st) → (0 < len (s_remaining st))%nat →
     S (len (s_remaining (SJFP_body st))) = len (s_remaining st) ∨
     (s_remaining (SJFP_body st) = s_remaining st ∧
      s_currTime st < s_currTime (SJFP_body st) ∧
      ∃ p, p ∈ elems (s_remaining st) ∧
           s_currTime (SJFP_body st) = ArrivalTime p)) ∧
  (∀ fuel, (total_burst processes ≤ fuel)%nat →
     is_Some (RRSchedule sort_Slice fuel title processes q)) ∧
  (∀ st p queue,
     RR_queue_ok st → rr_queue st = p :: queue → 0 < BurstDuration p →
     rr_queue (RR_body q st) = queue ∨
     ∃ p', rr_queue (RR_body q st) = queue ++ [p'] ∧
           ProcessID p' = ProcessID p ∧
           0 < BurstDuration p' < BurstDuration p).
Proof.
  intros Hperm Hall Hpos Hq.
  split; [|split; [|split; [|split; [|split; [|split]]]]].
  - unfold FCFSSchedule; simpl. by rewrite FCFS_loop_gantt_length.
  - intros fuel Hfuel.
    destruct (SJFSchedule_run sort_Slice fuel title processes)
      as (st & _ & ->); done.
  - intros st Hlen. simpl. lia.
  - intros fuel Hfuel.
    destruct (SJFPrioritySchedule_run sort_Slice fuel title processes)
      as (st & _ & ->); done.
  - intros st Hwf Hlen.
    destruct (SJFP_body_progress st Hwf Hlen) as [[_ ?]|(? & ? & ? & _)];
      [by left|by right].
  - intros fuel Hfuel. rewrite <- RR_measure_total_burst in Hfuel by done.
    destruct (RRSchedule_run sort_Slice fuel title processes q)
      as (st & _ & ->); done.
  - intros st p queue. by apply RR_body_positive_head.
Qed.

Lemma scheduling_loops_terminate_witness :
  is_Some (SJFSchedule insertionSort 2 "t" batch_rr) ∧
  is_Some (SJFPrioritySchedule insertionSort 4 "t" batch_rr) ∧
  is_Some (RRSchedule insertionSort 8 "t" batch_rr 2).
Proof.
  destruct (scheduling_loops_terminate insertionSort "t" batch_rr 2)
    as (_ & Hsjf & _ & Hsjfp & _ & Hrr & _).
  - apply insertionSort_permutes.
  - apply Forall_int64_batch_rr.
  - repeat constructor.
  - lia.
  - split; [apply Hsjf; simpl; lia|].
    split; [apply Hsjfp; simpl; lia|apply Hrr; vm_compute; lia].
Defined.

(** ** Throughput *)

Lemma FCFS_last_completion title l p :
  ∃ completion,
    last (column 6 (r_rows (FCFSSchedule title (l ++ [p])).2)) =
      Some (Some (CInt completion)) ∧
    r_throughput (FCFSSchedule title (l ++ [p])).2 =
      PrimFloat.div (float64_len (l ++ [p])) (float64 completion).
Proof.
  unfold FCFSSchedule; simpl. rewrite FCFS_loop_app. simpl.
  eexists. split; [|done].
  unfold column. rewrite fmap_last, last_lookup, length_insert.
  rewrite FCFS_loop_schedule_length; simpl.
  rewrite length_replicate, length_app, Nat.add_1_r; simpl.
  rewrite list_lookup_insert_eq; [done|].
  rewrite FCFS_loop_schedule_length; simpl.
  rewrite length_replicate, length_app; simpl. lia.
Qed.

Lemma SJF_loop_gantt_nonempty fuel processes st :
  processes ≠ [] → SJF_loop fuel (SJF_init processes) = Some st →
  s_gantt st ≠ [].
Proof.
  intros Hne Hrun.
  destruct (SJF_loop_ind
    (λ st, s_gantt st = [] → len (s_remaining st) = length processes))
    with (fuel := fuel) (st := SJF_init processes) (st' := st)
    as [Hg Hlen]; [| |done|].
  - intros st0 _ _. simpl. intros Hnil. by destruct (s_gantt st0).
  - done.
  - intros Hnil. specialize (Hg Hnil). destruct processes; [done|].
    simpl in Hg. lia.
Qed.

Lemma SJFP_loop_gantt_nonempty fuel processes st :
  processes ≠ [] → SJFP_loop fuel (SJF_init processes) = Some st →
  s_gantt st ≠ [].
Proof.
  intros Hne Hrun.
  destruct (SJFP_loop_ind
    (λ st, s_gantt st = [] → len (s_remaining st) = length processes))
    with (fuel := fuel) (st := SJF_init processes) (st' := st)
    as [Hg Hlen]; [| |done|].
  - intros st0 IH _. unfold SJFP_body.
    destruct (SJFP_select _ _); simpl; [|done].
    intros Hnil. by destruct (s_gantt st0).
  - done.
  - intros Hnil. specialize (Hg Hnil). destruct processes; [done|].
    simpl in Hg. lia.
Qed.

Lemma RR_loop_gantt_nonempty q fuel processes st :
  processes ≠ [] → RR_loop fuel q (RR_init processes) = Some st →
  rr_gantt st ≠ [].
Proof.
  intros Hne Hrun.
  destruct (RR_loop_ind q (λ st, rr_gantt st = [] → rr_queue st = processes))
    with (fuel := fuel) (st := RR_init processes) (st' := st)
    as [Hg Hnil]; [| |done|].
  - intros st0 _ Hq0. unfold RR_body.
    destruct (rr_queue st0); [done|].
    case_match; simpl; intros Hnil; by destruct (rr_gantt st0).
  - done.
  - intros Hgnil. specialize (Hg Hgnil). congruence.
Qed.

Lemma last_stop_of_clock gantt clock :
  gantt ≠ [] → clock_at_last_stop gantt clock →
  Stop <$> last gantt = Some clock.
Proof. by intros Hne [?|?]. Qed.

(** A process list that is sorted keeps its length. *)
Lemma float64_len_permutes sort_Slice less (processes : list Process) :
  permutes sort_Slice →
  float64_len (sort_Slice less processes) = float64_len processes.
Proof.
  intros Hperm. unfold float64_len.
  by rewrite (Permutation_length (Hperm _ _)).
Qed.

(** C9.  The throughput a policy reports is the number of processes divided
    by the policy's own final time: for FCFS the completion time in the last
    row of its table; for SJF and SJF-Priority the clock when the working
    set is empty; for round-robin the elapsed time when the queue is empty.
    In the last three that time is where the policy's own timeline stops.
    SJF and SJF-Priority return on fuel for one, respectively two,
    iterations per process, round-robin on fuel for its turns when the
    quantum is at least 1. *)
Theorem throughput_over_own_clock
    (sort_Slice : (Process → Process → bool) → list Process → list Process)
    (title : string) (processes : list Process) (q : Z) :
  permutes sort_Slice →
  processes ≠ [] →
  (∃ completion,
     last (column 6 (r_rows (FCFSSchedule title processes).2)) =
       Some (Some (CInt completion)) ∧
     r_throughput (FCFSSchedule title processes).2 =
       PrimFloat.div (float64_len processes) (float64 completion)) ∧
  (∀ fuel, (length processes ≤ fuel)%nat →
     ∃ ps r st,
       SJFSchedule sort_Slice fuel title processes = Some (ps, r) ∧
       SJF_loop fuel (SJF_init ps) = Some st ∧
       r_throughput r =
         PrimFloat.div (float64_len processes) (float64 (s_currTime st)) ∧
       Stop <$> last (r_gantt r) = Some (s_currTime st)) ∧
  (∀ fuel, (2 * length processes ≤ fuel)%nat →
     ∃ ps r st,
       SJFPrioritySchedule sort_Slice fuel title processes = Some (ps, r) ∧
       SJFP_loop fuel (SJF_init ps) = Some st ∧
       r_throughput r =
         PrimFloat.div (float64_len processes) (float64 (s_currTime st)) ∧
       Stop <$> last (r_gantt r) = Some (s_currTime st)) ∧
  (∀ fuel ps r,
     RRSchedule sort_Slice fuel title processes q = Some (ps, r) →
     ∃ st,
       RR_loop fuel q (RR_init ps) = Some st ∧
       r_throughput r =
         PrimFloat.div (float64_len processes) (float64 (rr_elapsed st)) ∧
       Stop <$> last (r_gantt r) = Some (rr_elapsed st)) ∧
  (1 ≤ q → Forall int64_process processes →
   ∀ fuel, (RR_measure processes ≤ fuel)%nat →
     is_Some (RRSchedule sort_Slice fuel title processes q)).
Proof.
  intros Hperm Hne.
  assert (∀ less, sort_Slice less processes ≠ []) as Hsorted.
  { intros less Hnil. apply Hne, Permutation_nil_r.
    by rewrite <- Hnil, (Hperm _ _). }
  split; [|split; [|split; [|split]]].
  - destruct (exists_last Hne) as (l & p & ->). apply FCFS_last_completion.
  - intros fuel Hfuel.
    destruct (SJFSchedule_run sort_Slice fuel title processes Hperm Hfuel)
      as (st & Hloop & Hrun).
    eexists _, _, st. split; [done|]. split; [done|]. simpl.
    rewrite float64_len_permutes by done. split; [done|].
    apply last_stop_of_clock.
    + eapply SJF_loop_gantt_nonempty; [apply Hsorted|done].
    + by eapply SJF_loop_last_clock.
  - intros fuel Hfuel.
    destruct (SJFPrioritySchedule_run sort_Slice fuel title processes Hperm Hfuel)
      as (st & Hloop & Hrun).
    eexists _, _, st. split; [done|]. split; [done|]. simpl.
    rewrite float64_len_permutes by done. split; [done|].
    apply last_stop_of_clock.
    + eapply SJFP_loop_gantt_nonempty; [apply Hsorted|done].
    + by eapply SJFP_loop_last_clock.
  - intros fuel ps r. unfold RRSchedule.
    destruct (RR_loop _ _ _) as [st|] eqn:Hloop; [|done]. simpl.
    intros [= <- <-]. exists st. split; [done|]. simpl.
    rewrite float64_len_permutes by done. split; [done|].
    apply last_stop_of_clock.
    + eapply RR_loop_gantt_nonempty; [apply Hsorted|done].
    + by eapply RR_loop_last_clock.
  - intros Hq Hall fuel Hfuel.
    destruct (RRSchedule_run sort_Slice fuel title processes q Hperm Hq Hall Hfuel)
      as (st & _ & ->). done.
Qed.

Lemma throughput_over_own_clock_witness :
  (∃ completion,
     last (column 6 (r_rows (FCFSSchedule "t" batch_rr).2)) =
       Some (Some (CInt completion)) ∧
     r_throughput (FCFSSchedule "t" batch_rr).2 =
       PrimFloat.div (float64_len batch_rr) (float64 completion)) ∧
  (∃ ps r st,
     SJFSchedule insertionSort 2 "t" batch_rr = Some (ps, r) ∧
     SJF_loop 2 (SJF_init ps) = Some st ∧
     r_throughput r =
       PrimFloat.div (float64_len batch_rr) (float64 (s_currTime st)) ∧
     Stop <$> last (r_gantt r) = Some (s_currTime st)).
Proof.
  destruct (throughput_over_own_clock insertionSort "t" batch_rr 2)
    as (Hfcfs & Hsjf & _).
  - apply insertionSort_permutes.
  - discriminate.
  - split; [apply Hfcfs|]. apply Hsjf. simpl. lia.
Defined.

(** ** The burst column *)

Lemma FCFS_burst_column title processes i p :
  processes !! i = Some p →
  column 2 (r_rows (FCFSSchedule title processes).2) !! i =
    Some (Some (CInt (BurstDuration p))).
Proof.
  intros Hp. pose proof (lookup_lt_Some _ _ _ Hp) as Hlt.
  unfold column. rewrite list_lookup_fmap, (FCFS_row_at _ _ _ _ Hp).
  unfold FCFS_body at 1; simpl.
  by rewrite list_lookup_insert_eq
    by (rewrite FCFS_loop_schedule_length; simpl; by rewrite length_replicate).
Qed.

Lemma dispatch_row_burst_column (tr : list (Process * Z)) :
  column 2 (dispatch_row <$> tr) = (λ p, Some (CInt (BurstDuration p))) <$> tr.*1.
Proof.
  unfold column. rewrite <- !list_fmap_compose. by apply list_fmap_ext.
Qed.

(** The rows of a round-robin run: the rows allocated up front, then one
    row per process that completed, each with burst 0. *)
Lemma RR_loop_rows q fuel processes st :
  1 ≤ q → Forall int64_process processes →
  RR_loop fuel q (RR_init processes) = Some st →
  ∃ completed,
    rr_schedule st = replicate (length processes) [] ++ completed ∧
    length completed = length processes ∧
    Forall (λ row : Row, row !! 2%nat = Some (CInt 0)) completed.
Proof.
  intros Hq Hall Hrun.
  destruct (RR_loop_ind q
    (λ st, RR_queue_ok st ∧
           ∃ completed,
             rr_schedule st = replicate (length processes) [] ++ completed ∧
             (length completed + length (rr_queue st))%nat = length processes ∧
             Forall (λ row : Row, row !! 2%nat = Some (CInt 0)) completed))
    with (fuel := fuel) (st := RR_init processes) (st' := st)
    as [[_ (completed & Hrows & Hlen & Hzero)] Hnil]; [| |done|].
  - intros st0 [Hok (completed & Hrows & Hlen & Hzero)] Hne.
    destruct (RR_body_measure q st0 Hq Hok Hne) as [Hok' _]. split; [done|].
    pose proof (RR_body_spec q st0 Hq Hok Hne) as Hstep.
    inversion Hstep as [? p queue ran elapsed Hq0
                       |? p queue ran elapsed t w Hq0]; simpl;
      rewrite Hq0 in Hlen; simpl in Hlen.
    + exists completed. rewrite length_app. simpl.
      split; [done|]. split; [lia|done].
    + exists (completed ++ [RR_row p elapsed]).
      rewrite Hrows, app_assoc, length_app. simpl.
      split; [done|]. split; [lia|].
      apply Forall_app. split; [done|]. by apply Forall_singleton.
  - split; [by apply RR_init_ok|]. exists []. simpl.
    by rewrite app_nil_r.
  - exists completed. rewrite Hnil in Hlen. simpl in Hlen.
    split; [done|]. split; [lia|done].
Qed.

(** C10.  For a quantum of at least 1 every metrics row that [RRSchedule]
    appends carries 0 in the burst column, the burst left after the last
    turn.  The other three schedulers write the burst of the process as it
    was given: FCFS in the row of each process, SJF and SJF-Priority in the
    row of each dispatch, and the processes dispatched are those of the
    batch. *)
Theorem burst_column_of_metrics
    (sort_Slice : (Process → Process → bool) → list Process → list Process)
    (title : string) (processes : list Process) (q : Z) :
  permutes sort_Slice →
  1 ≤ q →
  Forall int64_process processes →
  (∀ fuel, (RR_measure processes ≤ fuel)%nat →
     ∃ out completed,
       RRSchedule sort_Slice fuel title processes q = Some out ∧
       r_rows out.2 = replicate (length processes) [] ++ completed ∧
       length completed = length processes ∧
       Forall (λ row : Row, row !! 2%nat = Some (CInt 0)) completed) ∧
  (∀ i p, processes !! i = Some p →
     column 2 (r_rows (FCFSSchedule title processes).2) !! i =
       Some (Some (CInt (BurstDuration p)))) ∧
  (∀ fuel, (length processes ≤ fuel)%nat →
     ∃ out tr,
       SJFSchedule sort_Slice fuel title processes = Some out ∧
       r_rows out.2 = replicate (length processes) [] ++ (dispatch_row <$> tr) ∧
       column 2 (dispatch_row <$> tr) =
         (λ p, Some (CInt (BurstDuration p))) <$> tr.*1 ∧
       tr.*1 ≡ₚ processes) ∧
  (∀ fuel, (2 * length processes ≤ fuel)%nat →
     NoDup (ProcessID <$> processes) →
     ∃ out tr,
       SJFPrioritySchedule sort_Slice fuel title processes = Some out ∧
       r_rows out.2 = replicate (length processes) [] ++ (dispatch_row <$> tr) ∧
       column 2 (dispatch_row <$> tr) =
         (λ p, Some (CInt (BurstDuration p))) <$> tr.*1 ∧
       tr.*1 ≡ₚ processes).
Proof.
  intros Hperm Hq Hall. split; [|split; [|split]].
  - intros fuel Hfuel.
    destruct (RRSchedule_run sort_Slice fuel title processes q Hperm Hq Hall Hfuel)
      as (st & Hloop & Hrun).
    destruct (RR_loop_rows q fuel (sort_Slice less_arrival processes) st Hq)
      as (completed & Hrows & Hlen & Hzero);
      [by rewrite (Hperm _ _)|done|].
    rewrite (Permutation_length (Hperm _ _)) in Hrows, Hlen.
    eexists _, completed. split; [done|]. by simpl.
  - intros i p. apply FCFS_burst_column.
  - intros fuel Hfuel.
    destruct (SJFSchedule_run sort_Slice fuel title processes Hperm Hfuel)
      as (st & Hloop & Hrun).
    destruct (SJF_loop_dispatched _ _ _ Hloop) as (tr & (_ & _ & Hrows & _) & Htr).
    rewrite (Permutation_length (Hperm _ _)) in Hrows.
    eexists _, tr. split; [done|]. simpl. split; [done|].
    split; [apply dispatch_row_burst_column|]. by rewrite Htr, (Hperm _ _).
  - intros fuel Hfuel Hnd.
    destruct (SJFPrioritySchedule_run sort_Slice fuel title processes Hperm Hfuel)
      as (st & Hloop & Hrun).
    assert (NoDup (ProcessID <$>
              sort_Slice less_arrival_priority_burst processes)) as Hnd'
      by (by rewrite (Hperm _ _)).
    destruct (SJFP_loop_dispatched _ _ _ Hnd' Hloop)
      as (tr & (_ & _ & Hrows & _) & Htr).
    rewrite (Permutation_length (Hperm _ _)) in Hrows.
    eexists _, tr. split; [done|]. simpl. split; [done|].
    split; [apply dispatch_row_burst_column|]. by rewrite Htr, (Hperm _ _).
Qed.

Lemma burst_column_of_metrics_witness :
  ∃ out completed,
    RRSchedule insertionSort 8 "t" batch_rr 2 = Some out ∧
    r_rows out.2 = replicate (length batch_rr) [] ++ completed ∧
    length completed = length batch_rr ∧
    Forall (λ row : Row, row !! 2%nat = Some (CInt 0)) completed.
Proof.
  destruct (burst_column_of_metrics insertionSort "t" batch_rr 2)
    as (Hrr & _).
  - apply insertionSort_permutes.
  - lia.
  - apply Forall_int64_batch_rr.
  - apply Hrr. vm_compute. lia.
Defined.

(** ** What the selections choose *)

Lemma SJF_pick_cases rem si i :
  (BurstDuration (rem !!! i) < BurstDuration (rem !!! si) ∧
   SJF_pick rem si i = i) ∨
  (BurstDuration (rem !!! si) ≤ BurstDuration (rem !!! i) ∧
   SJF_pick rem si i = si).
Proof.
  unfold SJF_pick.
  destruct (Z.ltb_spec (BurstDuration (rem !!! i)) (BurstDuration (rem !!! si)));
    [left|right]; by split.
Qed.

(** SJF picks the first process of least burst, whatever its arrival. *)
Lemma SJF_shortestIndex_upto_least rem k :
  let si := foldl (SJF_pick rem) 0%nat (seq 0 k) in
  (∀ j, (j < k)%nat → BurstDuration (rem !!! si) ≤ BurstDuration (rem !!! j)) ∧
  (∀ j, (j < si)%nat → BurstDuration (rem !!! si) < BurstDuration (rem !!! j)) ∧
  (si < k ∨ si = 0)%nat.
Proof.
  induction k as [|k IH]; [simpl; repeat split; intros; lia|].
  rewrite seq_S, foldl_app; simpl.
  destruct IH as (Hleast & Hfirst & Hlt).
  set (si := foldl (SJF_pick rem) 0%nat (seq 0 k)) in *.
  destruct (SJF_pick_cases rem si k) as [[H ->]|[H ->]].
  - assert (0 < k)%nat.
    { destruct k; [|lia]. subst si. simpl in *. lia. }
    repeat split; [| |lia].
    + intros j Hj. destruct (decide (j = k)) as [->|]; [lia|].
      specialize (Hleast j). lia.
    + intros j Hj. specialize (Hleast j). lia.
  - repeat split; [|done|lia].
    intros j Hj. destruct (decide (j = k)) as [->|]; [lia|]. apply Hleast. lia.
Qed.

Lemma SJF_shortestIndex_least rem j :
  (j < length rem)%nat →
  BurstDuration (rem !!! SJF_shortestIndex rem) ≤ BurstDuration (rem !!! j).
Proof. intros. by apply (SJF_shortestIndex_upto_least rem (length rem)). Qed.

(** SJF-Priority picks, among the processes that have arrived, one of least
    burst and, among those, of least priority value. *)
Lemma SJFP_select_upto_least rem t k :
  match foldl (SJFP_pick rem t) None (seq 0 k) with
  | Some i =>
      ∀ j, (j < k)%nat → ArrivalTime (rem !!! j) ≤ t →
        BurstDuration (rem !!! i) < BurstDuration (rem !!! j) ∨
        (BurstDuration (rem !!! i) = BurstDuration (rem !!! j) ∧
         Priority (rem !!! i) ≤ Priority (rem !!! j))
  | None => True
  end.
Proof.
  induction k as [|k IH]; [done|].
  rewrite seq_S, foldl_app; simpl.
  pose proof (SJFP_select_upto rem t k) as Hprev.
  destruct (foldl (SJFP_pick rem t) None (seq 0 k)) as [i|];
    unfold SJFP_pick; destruct (Z.leb_spec (ArrivalTime (rem !!! k)) t).
  - destruct (Z.ltb_spec (BurstDuration (rem !!! k)) (BurstDuration (rem !!! i)));
      destruct (Z.eqb_spec (BurstDuration (rem !!! k)) (BurstDuration (rem !!! i)));
      destruct (Z.ltb_spec (Priority (rem !!! k)) (Priority (rem !!! i)));
      simpl; intros j Hj Harr;
      (destruct (decide (j = k)) as [->|]; [lia|]);
      specialize (IH j); lia.
  - intros j Hj Harr. destruct (decide (j = k)) as [->|]; [lia|].
    apply IH; [lia|done].
  - intros j Hj Harr. destruct (decide (j = k)) as [->|]; [lia|].
    specialize (Hprev j). lia.
  - done.
Qed.

Lemma SJFP_select_least rem t i j :
  SJFP_select rem t = Some i → (j < length rem)%nat →
  ArrivalTime (rem !!! j) ≤ t →
  BurstDuration (rem !!! i) < BurstDuration (rem !!! j) ∨
  (BurstDuration (rem !!! i) = BurstDuration (rem !!! j) ∧
   Priority (rem !!! i) ≤ Priority (rem !!! j)).
Proof.
  unfold SJFP_select. intros Hsel.
  pose proof (SJFP_select_upto_least rem t (length rem)) as H.
  rewrite Hsel in H. apply H.
Qed.

(** The clock after an SJF iteration: the start of the slice plus the burst
    found in the slot of the dispatched process once that process has been
    removed.  That is the burst of the next process of the working set,
    unless the dispatched one was the last. *)
Lemma SJF_body_clock st :
  slice_wf (s_remaining st) → (0 < len (s_remaining st))%nat →
  let si := SJF_shortestIndex (elems (s_remaining st)) in
  let shortest := deref (s_remaining st) si in
  let start := Z.max (s_currTime st) (ArrivalTime shortest) in
  s_currTime (SJF_body st) =
    Int64.add start
      (BurstDuration (if decide (S si < len (s_remaining st))%nat
                      then deref (s_remaining st) (S si) else shortest)).
Proof.
  intros Hwf Hpos si shortest start. simpl. fold si shortest.
  rewrite deref_remove_at by (done || by apply SJF_shortestIndex_lt_len).
  fold si shortest. f_equal. unfold start.
  destruct (Z.ltb_spec (s_currTime st) (ArrivalTime shortest)); lia.
Qed.


(** ** The size of the tables *)

(** FCFS fills the rows it allocated: one row per process. *)
Lemma FCFSSchedule_rows_length title processes :
  length (r_rows (FCFSSchedule title processes).2) = length processes.
Proof.
  unfold FCFSSchedule; simpl. rewrite FCFS_loop_schedule_length; simpl.
  by rewrite length_replicate.
Qed.

(** SJF appends its rows after the rows it allocated: two rows per process,
    the first half of them empty. *)
Lemma SJFSchedule_rows_length sort_Slice fuel title processes out :
  permutes sort_Slice →
  SJFSchedule sort_Slice fuel title processes = Some out →
  length (r_rows out.2) = (2 * length processes)%nat ∧
  take (length processes) (r_rows out.2) = replicate (length processes) [].
Proof.
  intros Hperm. unfold SJFSchedule.
  destruct (SJF_loop _ _) as [st|] eqn:Hloop; [|done]. simpl.
  intros [= <-]. simpl.
  destruct (SJF_loop_dispatched _ _ _ Hloop) as (tr & (_ & _ & Hrows & _) & Htr).
  rewrite (Permutation_length (Hperm _ _)) in Hrows.
  apply Permutation_length in Htr.
  rewrite length_fmap, (Permutation_length (Hperm _ _)) in Htr.
  rewrite Hrows. split.
  - rewrite length_app, length_replicate, length_fmap. lia.
  - by rewrite take_app_length' by (by rewrite length_replicate).
Qed.

(** Round-robin does the same. *)
Lemma RRSchedule_rows_length sort_Slice fuel title processes q out :
  permutes sort_Slice → 1 ≤ q → Forall int64_process processes →
  RRSchedule sort_Slice fuel title processes q = Some out →
  length (r_rows out.2) = (2 * length processes)%nat ∧
  take (length processes) (r_rows out.2) = replicate (length processes) [].
Proof.
  intros Hperm Hq Hall. unfold RRSchedule.
  destruct (RR_loop _ _ _) as [st|] eqn:Hloop; [|done]. simpl.
  intros [= <-]. simpl.
  destruct (RR_loop_rows q fuel (sort_Slice less_arrival processes) st Hq)
    as (completed & Hrows & Hlen & _); [by rewrite (Hperm _ _)|done|].
  rewrite (Permutation_length (Hperm _ _)) in Hrows, Hlen.
  rewrite Hrows. split.
  - rewrite length_app, length_replicate. lia.
  - by rewrite take_app_length' by (by rewrite length_replicate).
Qed.

(** * Further properties of the schedulers *)

(** ** The selections *)

(** X1.  The inner loop of [SJFSchedule] selects a slot of the working set
    whose burst is least, and the first such slot: every slot before it has
    a strictly greater burst.  Arrival times play no part. *)
Theorem SJF_selects_first_least_burst (rem : list Process) (j : nat) :
  (j < length rem)%nat →
  (SJF_shortestIndex rem < length rem)%nat ∧
  BurstDuration (rem !!! SJF_shortestIndex rem) ≤ BurstDuration (rem !!! j) ∧
  ((j < SJF_shortestIndex rem)%nat →
   BurstDuration (rem !!! SJF_shortestIndex rem) < BurstDuration (rem !!! j)).
Proof.
  intros Hj. split; [apply SJF_shortestIndex_lt; lia|].
  destruct (SJF_shortestIndex_upto_least rem (length rem)) as (Hleast & Hfirst & _).
  split; [by apply Hleast|]. apply Hfirst.
Qed.

Lemma SJF_selects_first_least_burst_witness :
  (SJF_shortestIndex batch_sjf < length batch_sjf)%nat ∧
  BurstDuration (batch_sjf !!! SJF_shortestIndex batch_sjf) ≤
    BurstDuration (batch_sjf !!! 1%nat) ∧
  ((1 < SJF_shortestIndex batch_sjf)%nat →
   BurstDuration (batch_sjf !!! SJF_shortestIndex batch_sjf) <
     BurstDuration (batch_sjf !!! 1%nat)).
Proof. apply (SJF_selects_first_least_burst batch_sjf 1). simpl. lia. Defined.

(** X2.  The selection loop of [SJFPrioritySchedule] finds nothing exactly
    when no process of the working set has arrived.  Otherwise the slot it
    selects holds a process that has arrived and that no arrived process
    beats: none has a smaller burst, and none of equal burst has a smaller
    priority value. *)
Theorem SJFP_selects_least_arrived (rem : list Process) (t : Z) :
  match SJFP_select rem t with
  | Some i =>
      (i < length rem)%nat ∧ ArrivalTime (rem !!! i) ≤ t ∧
      ∀ j, (j < length rem)%nat → ArrivalTime (rem !!! j) ≤ t →
        BurstDuration (rem !!! i) < BurstDuration (rem !!! j) ∨
        (BurstDuration (rem !!! i) = BurstDuration (rem !!! j) ∧
         Priority (rem !!! i) ≤ Priority (rem !!! j))
  | None => Forall (λ p, t < ArrivalTime p) rem
  end.
Proof.
  destruct (SJFP_select rem t) as [i|] eqn:Hsel.
  - destruct (SJFP_select_Some _ _ _ Hsel) as [Hi Harr].
    split; [done|]. split; [done|].
    intros j Hj Hjarr. by eapply SJFP_select_least.
  - by apply SJFP_select_None.
Qed.

(** X3.  When no process of a non-empty working set has arrived, an
    iteration of [SJFPrioritySchedule] dispatches nothing: timeline, rows,
    totals and working set stay as they are, and the clock moves forward to
    the least arrival time in the working set. *)
Theorem SJFP_idle_skips_to_least_arrival (st : SJFState) :
  slice_wf (s_remaining st) →
  (0 < len (s_remaining st))%nat →
  SJFP_select (elems (s_remaining st)) (s_currTime st) = None →
  let st' := SJFP_body st in
  s_gantt st' = s_gantt st ∧ s_schedule st' = s_schedule st ∧
  s_waitTime st' = s_waitTime st ∧ s_turn st' = s_turn st ∧
  s_remaining st' = s_remaining st ∧
  s_currTime st < s_currTime st' ∧
  (∃ p, p ∈ elems (s_remaining st) ∧ s_currTime st' = ArrivalTime p) ∧
  Forall (λ p, s_currTime st' ≤ ArrivalTime p) (elems (s_remaining st)).
Proof.
  intros Hwf Hpos Hsel. unfold SJFP_body. rewrite Hsel. simpl.
  assert (elems (s_remaining st) ≠ []) as Hne.
  { intros Hnil. apply (f_equal length) in Hnil.
    rewrite elems_length in Hnil by done. simpl in Hnil. lia. }
  apply SJFP_select_None in Hsel.
  destruct (SJFP_nextArrival_spec _ _ Hne Hsel) as (Hlt & Hex & Hmin).
  by repeat split.
Qed.

Lemma SJFP_idle_skips_to_least_arrival_witness :
  s_currTime (SJFP_body state_before_arrivals) = 2 ∧
  s_remaining (SJFP_body state_before_arrivals) =
    s_remaining state_before_arrivals.
Proof.
  destruct (SJFP_idle_skips_to_least_arrival state_before_arrivals)
    as (_ & _ & _ & _ & Hrem & _).
  - apply slice_copy_wf.
  - simpl. lia.
  - reflexivity.
  - split; [reflexivity|exact Hrem].
Defined.

(** X4.  An iteration of [SJFSchedule] emits the slice
    [start, start + burst] of the process it selected, where [start] is the
    later of the clock and the process's arrival; the clock it leaves is
    [start] plus the burst found in the selected slot after the removal:
    the burst of the process that followed in the working set, or, when the
    selected process was the last one, its own. *)
Theorem SJF_clock_reads_shifted_slot (st : SJFState) :
  slice_wf (s_remaining st) →
  (0 < len (s_remaining st))%nat →
  let si := SJF_shortestIndex (elems (s_remaining st)) in
  let shortest := deref (s_remaining st) si in
  let start := Z.max (s_currTime st) (ArrivalTime shortest) in
  last (s_gantt (SJF_body st)) =
    Some (mkTimeSlice (ProcessID shortest) start
            (Int64.add start (BurstDuration shortest))) ∧
  elems (s_remaining st) !! si = Some shortest ∧
  s_currTime (SJF_body st) =
    Int64.add start
      (BurstDuration (if decide (S si < len (s_remaining st))%nat
                      then deref (s_remaining st) (S si) else shortest)).
Proof.
  intros Hwf Hpos si shortest start.
  pose proof (SJF_shortestIndex_lt_len _ Hwf Hpos) as Hlt.
  split; [|split].
  - simpl. rewrite last_snoc. fold si shortest. do 2 f_equal;
      unfold start; destruct (Z.ltb_spec (s_currTime st) (ArrivalTime shortest));
      f_equal; lia.
  - by apply deref_elems.
  - by apply SJF_body_clock.
Qed.

Lemma SJF_clock_reads_shifted_slot_witness :
  last (s_gantt (SJF_body state_sjf_second)) = Some (mkTimeSlice 1 9 15) ∧
  s_currTime (SJF_body state_sjf_second) = 16.
Proof.
  destruct (SJF_clock_reads_shifted_slot state_sjf_second) as (Hslice & _ & Hclock).
  - apply slice_copy_wf.
  - simpl. lia.
  - split; [exact Hslice|exact Hclock].
Defined.

(** ** The dispatches of SJF and SJF-Priority *)

Lemma SJF_shortest_least_elem s p :
  slice_wf s → (0 < len s)%nat → p ∈ elems s →
  BurstDuration (deref s (SJF_shortestIndex (elems s))) ≤ BurstDuration p.
Proof.
  intros Hwf Hpos Hp.
  pose proof (SJF_shortestIndex_lt_len _ Hwf Hpos) as Hlt.
  pose proof (deref_elems _ _ Hwf Hlt) as Hsh.
  apply list_elem_of_lookup_total_1 in Hp as (j & Hj & <-).
  rewrite <- (list_lookup_total_correct _ _ _ Hsh).
  by apply SJF_shortestIndex_least.
Qed.

Lemma SJF_body_trace processes tr st :
  dispatched processes tr st → SJF_ordered tr st →
  (0 < len (s_remaining st))%nat →
  ∃ d, dispatched processes (tr ++ [d]) (SJF_body st) ∧
       SJF_ordered (tr ++ [d]) (SJF_body st).
Proof.
  intros (Hwf & Hg & Hs & Hperm) (Hsorted & Hle & Harr) Hpos.
  pose proof (SJF_shortestIndex_lt_len _ Hwf Hpos) as Hlt.
  pose proof (deref_elems _ _ Hwf Hlt) as Hsh.
  pose proof (λ p, SJF_shortest_least_elem _ p Hwf Hpos) as Hleast.
  set (si := SJF_shortestIndex (elems (s_remaining st))) in *.
  set (shortest := deref (s_remaining st) si) in *.
  set (start := if s_currTime st <? ArrivalTime shortest
                then ArrivalTime shortest else s_currTime st).
  assert (shortest ∈ elems (s_remaining st)) as Hin
    by (by eapply list_elem_of_lookup_2).
  exists (shortest, start). split; [repeat split; simpl|split; [|split]].
  - by apply remove_at_wf.
  - by rewrite Hg, fmap_app.
  - by rewrite Hs, fmap_app, app_assoc.
  - fold si. rewrite elems_remove_at by done.
    rewrite fmap_app; simpl. rewrite <- app_assoc; simpl.
    rewrite <- Hperm. apply Permutation_app_head.
    symmetry. by apply delete_Permutation.
  - rewrite fmap_app. simpl. intros i j a b Hij Ha Hb.
    apply lookup_snoc_Some in Hb as [[Hj Hb]|[Hj <-]].
    + apply lookup_snoc_Some in Ha as [[_ Ha]|[Hi _]]; [|lia].
      by apply (Hsorted i j).
    + apply lookup_snoc_Some in Ha as [[_ Ha]|[Hi _]]; [|lia].
      apply Hle; [by eapply list_elem_of_lookup_2|done].
  - simpl. fold si. rewrite elems_remove_at by done.
    rewrite fmap_app. simpl. intros d p Hd Hp.
    apply list_elem_of_delete_inv in Hp.
    apply elem_of_app in Hd as [Hd|Hd]; [by apply Hle|].
    apply list_elem_of_singleton in Hd as ->. by apply Hleast.
  - apply Forall_app. split; [done|]. apply Forall_singleton. simpl.
    unfold start. destruct (Z.ltb_spec (s_currTime st) (ArrivalTime shortest)); lia.
Qed.

Lemma SJF_loop_trace processes fuel st :
  SJF_loop fuel (SJF_init processes) = Some st →
  ∃ tr, dispatched processes tr st ∧ tr.*1 ≡ₚ processes ∧
        nondecreasing_bursts tr.*1 ∧ Forall (λ d, ArrivalTime d.1 ≤ d.2) tr.
Proof.
  intros Hrun.
  destruct (SJF_loop_ind
    (λ st, ∃ tr, dispatched processes tr st ∧ SJF_ordered tr st))
    with (fuel := fuel) (st := SJF_init processes) (st' := st)
    as [(tr & Htr & Hsorted & _ & Harr) Hlen]; [| |done|].
  - intros st0 (tr & Htr & Hord) Hpos.
    destruct (SJF_body_trace _ _ _ Htr Hord Hpos) as (d & ? & ?). by eexists.
  - exists []. split; [apply dispatched_init|].
    split; [|split].
    + by intros i j a b _ Ha.
    + intros d p Hd. by apply elem_of_nil in Hd.
    + constructor.
  - exists tr. split; [done|]. split; [|done].
    destruct Htr as (Hwf & _ & _ & Hperm).
    assert (elems st.(s_remaining) = []) as Hnil.
    { apply length_zero_iff_nil. by rewrite elems_length. }
    by rewrite Hnil, app_nil_r in Hperm.
Qed.

(** X5.  [SJFSchedule] dispatches every process of the batch exactly once:
    its timeline is one slice per process, from the clock at dispatch to
    that clock plus the process's burst, and each slice has its own row
    after the rows allocated up front.  With unique ids the same holds for
    [SJFPrioritySchedule]. *)
Theorem working_set_dispatches_each_once
    (sort_Slice : (Process → Process → bool) → list Process → list Process)
    (title : string) (processes : list Process) :
  permutes sort_Slice →
  (∀ fuel, (length processes ≤ fuel)%nat →
     ∃ out tr,
       SJFSchedule sort_Slice fuel title processes = Some out ∧
       r_gantt out.2 = dispatch_slice <$> tr ∧
       drop (length processes) (r_rows out.2) = dispatch_row <$> tr ∧
       tr.*1 ≡ₚ processes) ∧
  (∀ fuel, (2 * length processes ≤ fuel)%nat →
     NoDup (ProcessID <$> processes) →
     ∃ out tr,
       SJFPrioritySchedule sort_Slice fuel title processes = Some out ∧
       r_gantt out.2 = dispatch_slice <$> tr ∧
       drop (length processes) (r_rows out.2) = dispatch_row <$> tr ∧
       tr.*1 ≡ₚ processes).
Proof.
  intros Hperm. split.
  - intros fuel Hfuel.
    destruct (SJFSchedule_run sort_Slice fuel title processes Hperm Hfuel)
      as (st & Hloop & Hrun).
    destruct (SJF_loop_dispatched _ _ _ Hloop)
      as (tr & (_ & Hg & Hrows & _) & Htr).
    rewrite (Permutation_length (Hperm _ _)) in Hrows.
    eexists _, tr. split; [done|]. simpl. split; [done|].
    split; [|by rewrite Htr, (Hperm _ _)].
    rewrite Hrows. by rewrite drop_app_length' by (by rewrite length_replicate).
  - intros fuel Hfuel Hnd.
    destruct (SJFPrioritySchedule_run sort_Slice fuel title processes Hperm Hfuel)
      as (st & Hloop & Hrun).
    assert (NoDup (ProcessID <$>
              sort_Slice less_arrival_priority_burst processes)) as Hnd'
      by (by rewrite (Hperm _ _)).
    destruct (SJFP_loop_dispatched _ _ _ Hnd' Hloop)
      as (tr & (_ & Hg & Hrows & _) & Htr).
    rewrite (Permutation_length (Hperm _ _)) in Hrows.
    eexists _, tr. split; [done|]. simpl. split; [done|].
    split; [|by rewrite Htr, (Hperm _ _)].
    rewrite Hrows. by rewrite drop_app_length' by (by rewrite length_replicate).
Qed.

Lemma working_set_dispatches_each_once_witness :
  ∃ out tr,
    SJFSchedule insertionSort 4 "t" batch_sjf = Some out ∧
    r_gantt out.2 = dispatch_slice <$> tr ∧
    drop (length batch_sjf) (r_rows out.2) = dispatch_row <$> tr ∧
    tr.*1 ≡ₚ batch_sjf.
Proof.
  destruct (working_set_dispatches_each_once insertionSort "t" batch_sjf
              insertionSort_permutes) as [Hsjf _].
  apply Hsjf. simpl. lia.
Defined.

(** X6.  The timeline of [SJFSchedule] runs the processes in order of
    burst, shortest first, whatever their arrival times: the burst of a
    slice is never greater than the burst of a later slice. *)
Theorem SJFSchedule_runs_in_burst_order
    (sort_Slice : (Process → Process → bool) → list Process → list Process)
    (fuel : nat) (title : string) (processes : list Process) :
  permutes sort_Slice →
  (length processes ≤ fuel)%nat →
  ∃ out tr,
    SJFSchedule sort_Slice fuel title processes = Some out ∧
    r_gantt out.2 = dispatch_slice <$> tr ∧
    tr.*1 ≡ₚ processes ∧
    nondecreasing_bursts tr.*1.
Proof.
  intros Hperm Hfuel.
  destruct (SJFSchedule_run sort_Slice fuel title processes Hperm Hfuel)
    as (st & Hloop & Hrun).
  destruct (SJF_loop_trace _ _ _ Hloop)
    as (tr & (_ & Hg & _) & Htr & Hsorted & _).
  eexists _, tr. split; [done|]. simpl. split; [done|].
  split; [by rewrite Htr, (Hperm _ _)|done].
Qed.

Lemma SJFSchedule_runs_in_burst_order_witness :
  ∃ out tr,
    SJFSchedule insertionSort 4 "t" batch_sjf = Some out ∧
    r_gantt out.2 = dispatch_slice <$> tr ∧
    tr.*1 ≡ₚ batch_sjf ∧
    nondecreasing_bursts tr.*1.
Proof.
  apply (SJFSchedule_runs_in_burst_order insertionSort 4 "t" batch_sjf
           insertionSort_permutes).
  simpl. lia.
Defined.

Lemma SJFP_body_arrived processes tr st :
  SJFP_arrived processes tr st → (0 < len (s_remaining st))%nat →
  ∃ tr', SJFP_arrived processes tr' (SJFP_body st).
Proof.
  intros (Hwf & Hg & Hall & Hsub) Hpos. unfold SJFP_body.
  destruct (SJFP_select _ _) as [i|] eqn:Hsel.
  - apply SJFP_select_Some in Hsel as [Hi Harr].
    rewrite elems_length in Hi by done.
    pose proof (deref_elems _ _ Hwf Hi) as Hsh.
    rewrite (list_lookup_total_correct _ _ _ Hsh) in Harr.
    destruct (SJFP_remove_found _ _ Hwf Hi) as (j & Hj & ->).
    exists (tr ++ [(deref (s_remaining st) i, s_currTime st)]).
    split; [|split; [|split]]; simpl.
    + apply remove_at_wf; [done|lia].
    + by rewrite Hg, fmap_app.
    + apply Forall_app. split; [done|]. apply Forall_singleton. simpl.
      split; [|done]. apply Hsub. by eapply list_elem_of_lookup_2.
    + rewrite elems_remove_at by (done || lia).
      intros p Hp. by apply Hsub, (list_elem_of_delete_inv _ j).
  - by exists tr.
Qed.

Lemma SJFP_loop_arrived processes fuel st :
  SJFP_loop fuel (SJF_init processes) = Some st →
  ∃ tr, s_gantt st = dispatch_slice <$> tr ∧
        Forall (λ d, d.1 ∈ processes ∧ ArrivalTime d.1 ≤ d.2) tr.
Proof.
  intros Hrun.
  destruct (SJFP_loop_ind (λ st, ∃ tr, SJFP_arrived processes tr st))
    with (fuel := fuel) (st := SJF_init processes) (st' := st)
    as [(tr & _ & Hg & Hall & _) _]; [| |done|by exists tr].
  - intros st0 [tr Htr] Hpos. by eapply SJFP_body_arrived.
  - exists []. split; [apply slice_copy_wf|]. split; [done|].
    split; [constructor|]. simpl. by rewrite elems_slice_copy.
Qed.

(** X7.  Neither [SJFSchedule] nor [SJFPrioritySchedule] starts a process
    before it arrives: every slice of their timelines runs a process of the
    batch from a clock that is not earlier than that process's arrival. *)
Theorem working_set_never_starts_before_arrival
    (sort_Slice : (Process → Process → bool) → list Process → list Process)
    (title : string) (processes : list Process) :
  permutes sort_Slice →
  (∀ fuel, (length processes ≤ fuel)%nat →
     ∃ out tr,
       SJFSchedule sort_Slice fuel title processes = Some out ∧
       r_gantt out.2 = dispatch_slice <$> tr ∧
       Forall (λ d, d.1 ∈ processes ∧ ArrivalTime d.1 ≤ d.2) tr) ∧
  (∀ fuel, (2 * length processes ≤ fuel)%nat →
     ∃ out tr,
       SJFPrioritySchedule sort_Slice fuel title processes = Some out ∧
       r_gantt out.2 = dispatch_slice <$> tr ∧
       Forall (λ d, d.1 ∈ processes ∧ ArrivalTime d.1 ≤ d.2) tr).
Proof.
  intros Hperm. split.
  - intros fuel Hfuel.
    destruct (SJFSchedule_run sort_Slice fuel title processes Hperm Hfuel)
      as (st & Hloop & Hrun).
    destruct (SJF_loop_trace _ _ _ Hloop)
      as (tr & (_ & Hg & _) & Htr & _ & Harr).
    eexists _, tr. split; [done|]. simpl. split; [done|].
    apply Forall_forall. intros d Hd. split.
    + rewrite <- (Hperm less_arrival processes), <- Htr.
      by apply list_elem_of_fmap_2.
    + by apply (proj1 (Forall_forall _ _) Harr).
  - intros fuel Hfuel.
    destruct (SJFPrioritySchedule_run sort_Slice fuel title processes Hperm Hfuel)
      as (st & Hloop & Hrun).
    destruct (SJFP_loop_arrived _ _ _ Hloop) as (tr & Hg & Hall).
    eexists _, tr. split; [done|]. simpl. split; [done|].
    eapply Forall_impl; [done|]. intros d [Hd ?]. split; [|done].
    by rewrite <- (Hperm less_arrival_priority_burst processes).
Qed.

Lemma working_set_never_starts_before_arrival_witness :
  ∃ out tr,
    SJFPrioritySchedule insertionSort 8 "t" batch_sjf = Some out ∧
    r_gantt out.2 = dispatch_slice <$> tr ∧
    Forall (λ d, d.1 ∈ batch_sjf ∧ ArrivalTime d.1 ≤ d.2) tr.
Proof.
  destruct (working_set_never_starts_before_arrival insertionSort "t" batch_sjf
              insertionSort_permutes) as [_ Hsjfp].
  apply Hsjfp. simpl. lia.
Defined.

(** ** The round-robin timeline *)

Lemma contiguous_snoc from to gantt pid stop :
  contiguous from to gantt →
  contiguous from stop (gantt ++ [mkTimeSlice pid to stop]).
Proof.
  revert from. induction gantt as [|s gantt IH]; intros from; simpl.
  - by intros ->.
  - intros [? ?]. split; [done|]. by apply IH.
Qed.

Lemma RR_body_contiguous q st :
  contiguous 0 (rr_elapsed st) (rr_gantt st) →
  contiguous 0 (rr_elapsed (RR_body q st)) (rr_gantt (RR_body q st)).
Proof.
  intros Hc. unfold RR_body. destruct (rr_queue st) as [|p queue]; [done|].
  case_match; simpl; by apply contiguous_snoc.
Qed.

(** X8.  The round-robin timeline has no gaps and ignores arrival times:
    whenever [RRSchedule] returns, the first slice starts at 0 and every
    other slice starts where the one before it stopped. *)
Theorem RR_timeline_contiguous
    (sort_Slice : (Process → Process → bool) → list Process → list Process)
    (fuel : nat) (title : string) (processes : list Process) (q : Z)
    (out : list Process * Report) :
  RRSchedule sort_Slice fuel title processes q = Some out →
  ∃ elapsed, contiguous 0 elapsed (r_gantt out.2).
Proof.
  unfold RRSchedule. destruct (RR_loop _ _ _) as [st|] eqn:Hloop; [|done].
  simpl. intros [= <-]. simpl. exists (rr_elapsed st).
  destruct (RR_loop_ind q (λ st, contiguous 0 (rr_elapsed st) (rr_gantt st)))
    with (fuel := fuel) (st := RR_init (sort_Slice less_arrival processes))
         (st' := st) as [Hc _]; [| |done..].
  - intros st0 Hc _. by apply RR_body_contiguous.
  - done.
Qed.

Lemma RR_timeline_contiguous_witness :
  ∃ elapsed,
    contiguous 0 elapsed
      [mkTimeSlice 1 0 2; mkTimeSlice 2 2 4; mkTimeSlice 1 4 6;
       mkTimeSlice 2 6 7; mkTimeSlice 1 7 8].
Proof.
  apply (RR_timeline_contiguous insertionSort 8 "t" batch_rr 2
           (insertionSort less_arrival batch_rr,
            mkReport "t"
              [mkTimeSlice 1 0 2; mkTimeSlice 2 2 4; mkTimeSlice 1 4 6;
               mkTimeSlice 2 6 7; mkTimeSlice 1 7 8]
              [[]; []; RR_row (mkProcess 2 0 3 0) 7; RR_row (mkProcess 1 0 5 0) 8]
              (PrimFloat.div 25 2) (PrimFloat.div 15 2) (PrimFloat.div 2 8))).
  vm_compute. reflexivity.
Defined.

Lemma slice_time_app pid g1 g2 :
  slice_time pid (g1 ++ g2) = slice_time pid g1 + slice_time pid g2.
Proof.
  unfold slice_time. induction g1 as [|s g1 IH]; simpl; [done|].
  case_decide; lia.
Qed.

Lemma burst_of_app pid l1 l2 :
  burst_of pid (l1 ++ l2) = burst_of pid l1 + burst_of pid l2.
Proof.
  unfold burst_of. induction l1 as [|p l1 IH]; simpl; [done|].
  case_decide; lia.
Qed.

Lemma burst_sum_app l1 l2 : burst_sum (l1 ++ l2) = burst_sum l1 + burst_sum l2.
Proof. unfold burst_sum. induction l1 as [|p l1 IH]; simpl; lia. Qed.

Lemma burst_of_Permutation pid l1 l2 :
  l1 ≡ₚ l2 → burst_of pid l1 = burst_of pid l2.
Proof.
  unfold burst_of. induction 1; simpl; repeat case_decide; lia.
Qed.

Lemma burst_sum_Permutation l1 l2 : l1 ≡ₚ l2 → burst_sum l1 = burst_sum l2.
Proof. unfold burst_sum. induction 1; simpl; lia. Qed.

Lemma burst_sum_nonneg l :
  Forall (λ p, 0 < BurstDuration p) l → 0 ≤ burst_sum l.
Proof. unfold burst_sum. induction 1; simpl; lia. Qed.

Lemma burst_of_cons pid p l :
  burst_of pid (p :: l) =
    (if decide (ProcessID p = pid) then BurstDuration p else 0) + burst_of pid l.
Proof. unfold burst_of. simpl. case_decide; lia. Qed.

Lemma slice_time_singleton pid s :
  slice_time pid [s] = if decide (PID s = pid) then Stop s - Start s else 0.
Proof. unfold slice_time. simpl. case_decide; lia. Qed.

Lemma RR_body_conserved processes q st :
  1 ≤ q → burst_sum processes ≤ Int64.max_int →
  RR_conserved processes q st → rr_queue st ≠ [] →
  RR_conserved processes q (RR_body q st).
Proof.
  intros Hq Hmax (Hok & Hpos & Hel & Hsum & Hpid & Hslices) Hne.
  destruct (RR_body_measure q st Hq Hok Hne) as [Hok' _].
  pose proof (RR_body_spec q st Hq Hok Hne) as Hstep.
  remember (RR_body q st) as st' eqn:Hst'. clear Hst'.
  inversion Hstep as [? p queue ran elapsed Hq0 Hran Helapsed Hleft
                     |? p queue ran elapsed t w Hq0 Hran Helapsed Hzero];
    subst st'; rewrite Hq0 in *;
    apply Forall_cons in Hpos as [Hp Hrest];
    pose proof (burst_sum_nonneg _ Hrest) as Hnonneg;
    change (burst_sum (p :: queue))
      with (BurstDuration p + burst_sum queue) in Hsum;
    assert (elapsed = rr_elapsed st + ran) as Hexact
      by (rewrite Helapsed; apply Int64_wrap_id;
          unfold Int64.in_range, Int64.min_int, Int64.max_int in *; lia);
    clear Helapsed.
  - split; [done|]. simpl. repeat split.
    + apply Forall_app. split; [done|]. apply Forall_singleton. simpl. lia.
    + lia.
    + rewrite burst_sum_app.
      change (burst_sum [?x]) with (BurstDuration x + 0). simpl. lia.
    + intros pid. specialize (Hpid pid).
      rewrite burst_of_cons in Hpid.
      rewrite slice_time_app, burst_of_app, slice_time_singleton.
      rewrite burst_of_cons. simpl.
      change (burst_of pid []) with 0. repeat case_decide; lia.
    + apply Forall_app. split; [done|]. apply Forall_singleton. simpl. lia.
  - split; [done|]. simpl. repeat split.
    + done.
    + lia.
    + lia.
    + intros pid. specialize (Hpid pid).
      rewrite burst_of_cons in Hpid.
      rewrite slice_time_app, slice_time_singleton. simpl.
      repeat case_decide; lia.
    + apply Forall_app. split; [done|]. apply Forall_singleton. simpl. lia.
Qed.

Lemma RR_loop_conserved processes q fuel st :
  1 ≤ q → burst_sum processes ≤ Int64.max_int →
  Forall int64_process processes →
  Forall (λ p, 0 < BurstDuration p) processes →
  RR_loop fuel q (RR_init processes) = Some st →
  rr_elapsed st = burst_sum processes ∧
  (∀ pid, slice_time pid (rr_gantt st) = burst_of pid processes) ∧
  Forall (λ s, 1 ≤ Stop s - Start s ≤ q) (rr_gantt st).
Proof.
  intros Hq Hmax Hall Hpos Hrun.
  destruct (RR_loop_ind q (RR_conserved processes q))
    with (fuel := fuel) (st := RR_init processes) (st' := st)
    as [(_ & _ & _ & Hsum & Hpid & Hslices) Hnil]; [| |done|].
  - intros st0 Hinv Hne. by apply RR_body_conserved.
  - split; [by apply RR_init_ok|]. simpl. by repeat split.
  - rewrite Hnil in *. split; [|split; [|done]].
    + change (burst_sum []) with 0 in Hsum. lia.
    + intros pid. specialize (Hpid pid).
      change (burst_of pid []) with 0 in Hpid. lia.
Qed.

(** Two processes with positive bursts whose sum fits an [int64]. *)
Lemma batch_rr_conditions :
  Forall (λ p, 0 < BurstDuration p) batch_rr ∧
  burst_sum batch_rr ≤ Int64.max_int.
Proof. split; [repeat constructor|vm_compute; discriminate]. Qed.

(** X9.  Round-robin neither creates nor loses processor time.  With
    positive bursts whose sum fits an [int64] and a quantum of at least 1,
    the run ends with the elapsed time equal to the sum of all bursts, and
    for every id the slices that carry it add up to the bursts of the
    processes with that id. *)
Theorem RR_conserves_processor_time
    (sort_Slice : (Process → Process → bool) → list Process → list Process)
    (fuel : nat) (title : string) (processes : list Process) (q : Z) :
  permutes sort_Slice →
  1 ≤ q →
  Forall int64_process processes →
  Forall (λ p, 0 < BurstDuration p) processes →
  burst_sum processes ≤ Int64.max_int →
  (RR_measure processes ≤ fuel)%nat →
  ∃ out st,
    RRSchedule sort_Slice fuel title processes q = Some out ∧
    RR_loop fuel q (RR_init out.1) = Some st ∧
    rr_elapsed st = burst_sum processes ∧
    ∀ pid, slice_time pid (r_gantt out.2) = burst_of pid processes.
Proof.
  intros Hperm Hq Hall Hpos Hmax Hfuel.
  destruct (RRSchedule_run sort_Slice fuel title processes q Hperm Hq Hall Hfuel)
    as (st & Hloop & Hrun).
  destruct (RR_loop_conserved (sort_Slice less_arrival processes) q fuel st)
    as (Hsum & Hpid & _); try done.
  - by rewrite (burst_sum_Permutation _ _ (Hperm _ _)).
  - by rewrite (Hperm _ _).
  - by rewrite (Hperm _ _).
  - eexists _, st. split; [done|]. simpl. split; [done|].
    rewrite Hsum. split; [by apply burst_sum_Permutation|].
    intros pid. rewrite Hpid. by apply burst_of_Permutation.
Qed.

Lemma RR_conserves_processor_time_witness :
  ∃ out st,
    RRSchedule insertionSort 8 "t" batch_rr 2 = Some out ∧
    RR_loop 8 2 (RR_init out.1) = Some st ∧
    rr_elapsed st = burst_sum batch_rr ∧
    ∀ pid, slice_time pid (r_gantt out.2) = burst_of pid batch_rr.
Proof.
  apply (RR_conserves_processor_time insertionSort 8 "t" batch_rr 2
           insertionSort_permutes).
  - lia.
  - apply Forall_int64_batch_rr.
  - apply batch_rr_conditions.
  - apply batch_rr_conditions.
  - vm_compute. lia.
Defined.

(** X10.  Under the same conditions no round-robin slice is empty and none
    is longer than the quantum. *)
Theorem RR_slices_within_quantum
    (sort_Slice : (Process → Process → bool) → list Process → list Process)
    (fuel : nat) (title : string) (processes : list Process) (q : Z) :
  permutes sort_Slice →
  1 ≤ q →
  Forall int64_process processes →
  Forall (λ p, 0 < BurstDuration p) processes →
  burst_sum processes ≤ Int64.max_int →
  (RR_measure processes ≤ fuel)%nat →
  ∃ out,
    RRSchedule sort_Slice fuel title processes q = Some out ∧
    Forall (λ s, 1 ≤ Stop s - Start s ≤ q) (r_gantt out.2).
Proof.
  intros Hperm Hq Hall Hpos Hmax Hfuel.
  destruct (RRSchedule_run sort_Slice fuel title processes q Hperm Hq Hall Hfuel)
    as (st & Hloop & Hrun).
  destruct (RR_loop_conserved (sort_Slice less_arrival processes) q fuel st)
    as (_ & _ & Hslices); try done.
  - by rewrite (burst_sum_Permutation _ _ (Hperm _ _)).
  - by rewrite (Hperm _ _).
  - by rewrite (Hperm _ _).
  - by eexists.
Qed.

Lemma RR_slices_within_quantum_witness :
  ∃ out,
    RRSchedule insertionSort 8 "t" batch_rr 2 = Some out ∧
    Forall (λ s, 1 ≤ Stop s - Start s ≤ 2) (r_gantt out.2).
Proof.
  apply (RR_slices_within_quantum insertionSort 8 "t" batch_rr 2
           insertionSort_permutes).
  - lia.
  - apply Forall_int64_batch_rr.
  - apply batch_rr_conditions.
  - apply batch_rr_conditions.
  - vm_compute. lia.
Defined.

(** ** The round-robin table *)




(** ** The FCFS timeline *)

Lemma Int64_add_sub_cancel a b :
  Int64.in_range a → Int64.add (Int64.sub a b) b = a.
Proof.
  intros Ha. unfold Int64.add, Int64.sub, Int64.wrap.
  replace ((a - b + 2 ^ 63) `mod` 2 ^ 64 - 2 ^ 63 + b + 2 ^ 63)
    with ((a - b + 2 ^ 63) `mod` 2 ^ 64 + b) by lia.
  rewrite Zplus_mod_idemp_l.
  replace (a - b + 2 ^ 63 + b) with (a + 2 ^ 63) by lia.
  by apply Int64_wrap_id.
Qed.

Lemma serviceTimeSoFar_S processes i p :
  processes !! i = Some p →
  serviceTimeSoFar processes (S i) =
    Int64.add (serviceTimeSoFar processes i) (BurstDuration p).
Proof.
  intros Hp. unfold serviceTimeSoFar.
  by rewrite (take_S_r _ _ _ Hp), fmap_app, foldl_app.
Qed.

Lemma FCFS_loop_gantt_prefix i l st :
  ∃ g, f_gantt (FCFS_loop i l st) = f_gantt st ++ g.
Proof.
  revert i st. induction l as [|p l IH]; intros i st; simpl.
  - exists []. by rewrite app_nil_r.
  - destruct (IH (S i) (FCFS_body i p st)) as [g ->]. simpl.
    eexists. by rewrite <- app_assoc.
Qed.

(** The slice appended for the process at index [i]. *)
Lemma FCFS_slice_at title processes i p :
  processes !! i = Some p →
  r_gantt (FCFSSchedule title processes).2 !! i =
    last (f_gantt (FCFS_body i p (FCFS_loop 0 (take i processes)
                                    (FCFS_init processes)))).
Proof.
  intros Hp. pose proof (lookup_lt_Some _ _ _ Hp) as Hlt.
  unfold FCFSSchedule; simpl.
  remember (FCFS_init processes) as st0 eqn:Hst0.
  assert (f_gantt st0 = []) as Hnil by (by subst st0). clear Hst0.
  replace (FCFS_loop 0 processes st0)
    with (FCFS_loop 0 (take i processes ++ p :: drop (S i) processes) st0)
    by (by rewrite take_drop_middle).
  rewrite FCFS_loop_app. simpl.
  rewrite length_take, Nat.min_l by lia.
  destruct (FCFS_loop_gantt_prefix (S i) (drop (S i) processes)
              (FCFS_body i p (FCFS_loop 0 (take i processes) st0)))
    as [g ->].
  simpl. rewrite last_snoc. rewrite <- app_assoc.
  pose proof (FCFS_loop_gantt_length 0 (take i processes) st0) as Hlen.
  rewrite Hnil, length_take, Nat.min_l in Hlen by lia. simpl in Hlen.
  rewrite lookup_app_r by lia. by rewrite Hlen, Nat.sub_diag.
Qed.

Lemma FCFS_loop_waiting_zero i l st :
  Forall (λ p, ArrivalTime p = 0) l → f_waitingTime st = 0 →
  f_waitingTime (FCFS_loop i l st) = 0.
Proof.
  intros Hall. revert i st.
  induction Hall as [|p l Hp _ IH]; intros i st Hw; simpl; [done|].
  apply IH. simpl. by rewrite Hp.
Qed.

(** X12.  FCFS goes by order, not by the clock.  The slice of every
    process stops at the running sum of the bursts up to and including its
    own, and a process that arrives after time 0 starts at the running sum
    of the bursts before it, whether or not it has arrived by then. *)
Theorem FCFS_slices_follow_service_time (title : string)
    (processes : list Process) (i : nat) (p : Process) :
  processes !! i = Some p →
  ∃ slice,
    r_gantt (FCFSSchedule title processes).2 !! i = Some slice ∧
    PID slice = ProcessID p ∧
    Stop slice = serviceTimeSoFar processes (S i) ∧
    (0 < ArrivalTime p → Start slice = serviceTimeSoFar processes i).
Proof.
  intros Hp. rewrite (FCFS_slice_at _ _ _ _ Hp).
  unfold FCFS_body. simpl. rewrite last_snoc. eexists. split; [done|]. simpl.
  rewrite FCFS_loop_serviceTime. simpl.
  fold (serviceTimeSoFar processes i).
  split; [done|]. split; [by rewrite (serviceTimeSoFar_S _ _ _ Hp)|].
  intros Harr. apply Z.ltb_lt in Harr as ->.
  apply Int64_add_sub_cancel, serviceTimeSoFar_in_range.
Qed.

Lemma FCFS_slices_follow_service_time_witness :
  ∃ slice,
    r_gantt (FCFSSchedule "t" batch_late_arrivals).2 !! 1%nat = Some slice ∧
    PID slice = 2 ∧
    Stop slice = serviceTimeSoFar batch_late_arrivals 2 ∧
    (0 < 2 → Start slice = serviceTimeSoFar batch_late_arrivals 1).
Proof.
  apply (FCFS_slices_follow_service_time "t" batch_late_arrivals 1
           (mkProcess 2 2 3 0)).
  reflexivity.
Defined.

(** X13.  When every process arrives at time 0, [FCFSSchedule] gives every
    process the wait 0 and starts every slice at 0: the slices overlap, each
    running from 0 to the running sum of the bursts. *)
Theorem FCFS_all_arrive_at_zero (title : string) (processes : list Process)
    (i : nat) (p : Process) :
  Forall (λ p, ArrivalTime p = 0) processes →
  processes !! i = Some p →
  column 4 (r_rows (FCFSSchedule title processes).2) !! i =
    Some (Some (CInt 0)) ∧
  r_gantt (FCFSSchedule title processes).2 !! i =
    Some (mkTimeSlice (ProcessID p) 0 (serviceTimeSoFar processes (S i))).
Proof.
  intros Hall Hp. pose proof (lookup_lt_Some _ _ _ Hp) as Hlt.
  assert (ArrivalTime p = 0) as Harr
    by (by eapply (proj1 (Forall_lookup _ _) Hall)).
  assert (f_waitingTime (FCFS_loop 0 (take i processes) (FCFS_init processes)) = 0)
    as Hw by (apply FCFS_loop_waiting_zero; [by apply Forall_take|done]).
  split.
  - unfold column. rewrite list_lookup_fmap, (FCFS_row_at _ _ _ _ Hp).
    unfold FCFS_body at 1; simpl.
    rewrite list_lookup_insert_eq
      by (rewrite FCFS_loop_schedule_length; simpl; by rewrite length_replicate).
    simpl. by rewrite Harr, Hw.
  - rewrite (FCFS_slice_at _ _ _ _ Hp).
    unfold FCFS_body. simpl. rewrite last_snoc. rewrite Harr, Hw. simpl.
    rewrite FCFS_loop_serviceTime. simpl.
    fold (serviceTimeSoFar processes i).
    by rewrite (serviceTimeSoFar_S _ _ _ Hp).
Qed.

Lemma FCFS_all_arrive_at_zero_witness :
  column 4 (r_rows (FCFSSchedule "t" batch_24_3_3).2) !! 2%nat =
    Some (Some (CInt 0)) ∧
  r_gantt (FCFSSchedule "t" batch_24_3_3).2 !! 2%nat =
    Some (mkTimeSlice 3 0 (serviceTimeSoFar batch_24_3_3 3)).
Proof.
  apply (FCFS_all_arrive_at_zero "t" batch_24_3_3 2 (mkProcess 3 0 3 0)).
  - repeat constructor.
  - reflexivity.
Defined.

(** ** The empty batch *)

(** X14.  On an empty batch every scheduler returns at once with an empty
    timeline and an empty table, and its three statistics are 0 / 0, that
    is NaN: the averages and the throughput divide by the number of
    processes or by a clock that is still 0. *)
Theorem schedulers_on_empty_batch
    (sort_Slice : (Process → Process → bool) → list Process → list Process)
    (fuel : nat) (title : string) (q : Z) :
  permutes sort_Slice →
  let empty := mkReport title [] [] PrimFloat.nan PrimFloat.nan PrimFloat.nan in
  FCFSSchedule title [] = ([], empty) ∧
  SJFSchedule sort_Slice fuel title [] = Some ([], empty) ∧
  SJFPrioritySchedule sort_Slice fuel title [] = Some ([], empty) ∧
  RRSchedule sort_Slice fuel title [] q = Some ([], empty).
Proof.
  intros Hperm empty.
  assert (∀ less, sort_Slice less [] = []) as Hnil
    by (intros less; apply Permutation_nil_r, (Hperm less [])).
  unfold SJFSchedule, SJFPrioritySchedule, RRSchedule, empty.
  rewrite !Hnil. by destruct fuel.
Qed.

Lemma schedulers_on_empty_batch_witness :
  RRSchedule insertionSort 0 "t" [] 2 =
    Some ([], mkReport "t" [] [] PrimFloat.nan PrimFloat.nan PrimFloat.nan) ∧
  PrimFloat.is_nan PrimFloat.nan = true.
Proof.
  split; [|reflexivity].
  apply (schedulers_on_empty_batch insertionSort 0 "t" 2 insertionSort_permutes).
Defined.

(** * Properties of the chart, the loader and the pager *)

(** ** outputGantt *)

Lemma string_length_app (s1 s2 : string) :
  String.length (s1 +:+ s2) = (String.length s1 + String.length s2)%nat.
Proof. induction s1 as [|c s1 IH]; simpl; [done|]. by rewrite IH. Qed.

Lemma concat_spaces_length n :
  String.length (String.concat "" (replicate n " ")) = n.
Proof.
  induction n as [|n IH]; [done|]. destruct n as [|n]; [done|].
  change (replicate (S (S n)) " ") with (" " :: replicate (S n) " ").
  change (String.concat "" (" " :: replicate (S n) " "))
    with (" " +:+ "" +:+ String.concat "" (replicate (S n) " ")).
  rewrite !string_length_app, IH. done.
Qed.

Lemma Repeat_space_length count padding :
  Repeat " " count = Some padding →
  0 ≤ count ∧ String.length padding = Z.to_nat count.
Proof.
  unfold Repeat. destruct (Z.ltb_spec count 0); [done|]. intros [= <-].
  split; [done|]. apply concat_spaces_length.
Qed.

Lemma gantt_cell_None Sprint slice :
  gantt_cell Sprint slice = None ↔
  (9 < String.length (Sprint (PID slice)))%nat.
Proof.
  unfold gantt_cell, Repeat.
  set (L := String.length (Sprint (PID slice))).
  destruct (Z.ltb_spec (Z.quot (8 - Z.of_nat L) 2) 0) as [Hneg|Hpos]; simpl.
  - split; [intros _|done].
    destruct (decide (9 < L)%nat); [done|]. exfalso.
    assert (-1 ≤ 8 - Z.of_nat L) as Hge by lia.
    assert (-1 = 8 - Z.of_nat L ∨ 0 ≤ 8 - Z.of_nat L) as [Heq|Hnn] by lia.
    + rewrite <- Heq in Hneg. by vm_compute in Hneg.
    + pose proof (Z.quot_pos (8 - Z.of_nat L) 2 Hnn ltac:(lia)). lia.
  - split; [done|]. intros HL. exfalso.
    assert (8 - Z.of_nat L ≤ -2) as Hle by lia.
    pose proof (Z.quot_le_mono (8 - Z.of_nat L) (-2) 2 ltac:(lia) Hle) as Hq.
    change (Z.quot (-2) 2) with (-1) in Hq. lia.
Qed.

Lemma gantt_cells_Panicked Sprint gantt out :
  (∃ out', gantt_cells Sprint gantt out = Panicked out') ↔
  Exists (λ slice, (9 < String.length (Sprint (PID slice)))%nat) gantt.
Proof.
  revert out. induction gantt as [|slice gantt IH]; intros out; simpl.
  - split; [by intros [? ?]|by intros ?%Exists_nil].
  - rewrite Exists_cons, <- gantt_cell_None.
    destruct (gantt_cell Sprint slice) as [cell|] eqn:Hcell.
    + rewrite IH. split; [by right|]. by intros [?|?].
    + split; [by left|]. by eexists.
Qed.

(** X15.  [outputGantt] panics exactly when the text of some slice's id is
    longer than 9 bytes: the padding of its cell then has a negative
    repeat count.  An id of exactly 9 bytes does not panic, since Go's
    division rounds [-1 / 2] to 0. *)
Theorem outputGantt_panics_on_long_id (Sprint : Z → string)
    (gantt : list TimeSlice) :
  (∃ out, outputGantt Sprint gantt = Panicked out) ↔
  Exists (λ slice, (9 < String.length (Sprint (PID slice)))%nat) gantt.
Proof.
  rewrite <- (gantt_cells_Panicked Sprint gantt
                ("Gantt schedule" +:+ newline +:+ "|")).
  unfold outputGantt. destruct (gantt_cells _ _ _) as [out|out].
  - split; intros [out' ?]; done.
  - split; intros _; by eexists.
Qed.

(** X16.  A cell of the chart is not of constant width: the bar included,
    it takes 9 bytes when the id text has an even length of at most 8
    bytes, 8 bytes when the length is odd and at most 7, and 10 bytes when
    the id text has 9 bytes. *)
Theorem gantt_cell_width (Sprint : Z → string) (slice : TimeSlice)
    (cell : string) :
  gantt_cell Sprint slice = Some cell →
  let L := String.length (Sprint (PID slice)) in
  (L ≤ 9)%nat ∧
  String.length cell =
    (if decide (L = 9)%nat then 10 else if Nat.even L then 9 else 8)%nat.
Proof.
  intros Hcell L.
  assert (L ≤ 9)%nat as HL.
  { destruct (decide (9 < L)%nat) as [Hlong|]; [|lia].
    apply (gantt_cell_None Sprint) in Hlong. congruence. }
  split; [done|]. unfold gantt_cell in Hcell. fold L in Hcell.
  destruct (Repeat " " _) as [padding|] eqn:Hrep; [|done].
  simpl in Hcell. injection Hcell as <-.
  apply Repeat_space_length in Hrep as [_ Hpad].
  rewrite !string_length_app, Hpad. fold L. simpl.
  clear Hpad. do 10 (destruct L as [|L]; [by vm_compute|]). lia.
Qed.

Lemma gantt_cell_width_witness :
  (1 ≤ 9)%nat ∧
  String.length ("   " +:+ "7" +:+ "   " +:+ "|") =
    (if decide (1 = 9)%nat then 10 else if Nat.even 1 then 9 else 8)%nat.
Proof.
  apply (gantt_cell_width Sprint_digit (mkTimeSlice 7 0 3)
           ("   " +:+ "7" +:+ "   " +:+ "|")).
  reflexivity.
Defined.

Lemma FCFS_slices_follow_service_time_pid title processes i p :
  processes !! i = Some p →
  ∃ slice,
    r_gantt (FCFSSchedule title processes).2 !! i = Some slice ∧
    PID slice = ProcessID p.
Proof.
  intros Hp. rewrite (FCFS_slice_at _ _ _ _ Hp).
  unfold FCFS_body. simpl. rewrite last_snoc. by eexists.
Qed.

Lemma FCFS_gantt_pids title processes :
  PID <$> r_gantt (FCFSSchedule title processes).2 = ProcessID <$> processes.
Proof.
  apply list_eq. intros i. rewrite !list_lookup_fmap.
  destruct (processes !! i) as [p|] eqn:Hp.
  - destruct (FCFS_slices_follow_service_time_pid title processes i p Hp)
      as (slice & -> & Hpid). simpl. by rewrite Hpid.
  - apply lookup_ge_None in Hp.
    rewrite (proj2 (lookup_ge_None _ _)); [done|].
    unfold FCFSSchedule; simpl. rewrite FCFS_loop_gantt_length. simpl. lia.
Qed.

(** X17.  The chart of the first policy decides whether [main] gets past
    it: [outputGantt] panics on the timeline of [FCFSSchedule] exactly when
    the batch holds a process whose id prints in more than 9 bytes. *)
Theorem FCFS_chart_panics_on_long_process_id (Sprint : Z → string)
    (title : string) (processes : list Process) :
  (∃ out, outputGantt Sprint (r_gantt (FCFSSchedule title processes).2) =
          Panicked out) ↔
  Exists (λ p, (9 < String.length (Sprint (ProcessID p)))%nat) processes.
Proof.
  set (gantt := r_gantt (FCFSSchedule title processes).2).
  transitivity (Exists (λ slice, (9 < String.length (Sprint (PID slice)))%nat) gantt).
  - rewrite <- (gantt_cells_Panicked Sprint gantt
                  ("Gantt schedule" +:+ newline +:+ "|")).
    unfold outputGantt. destruct (gantt_cells _ _ _) as [out|out].
    + split; intros [out' ?]; done.
    + split; intros _; by eexists.
  - rewrite <- (Exists_fmap PID (λ pid, (9 < String.length (Sprint pid))%nat)).
    rewrite <- (Exists_fmap ProcessID
                  (λ pid, (9 < String.length (Sprint pid))%nat)).
    unfold gantt. by rewrite FCFS_gantt_pids.
Qed.

(** ** loadProcesses *)

Lemma load_row_Ok ParseInt row p :
  load_row ParseInt row = Ok p ↔ row_loads ParseInt row p.
Proof.
  unfold load_row, load_field, mustStrToInt, row_loads.
  destruct row as [|sid [|sburst [|sarrival rest]]]; simpl.
  - split; [done|]. by intros (? & ? & ? & ? & ? & _).
  - destruct (ParseInt sid); simpl; (split; [done|]);
      by intros (? & ? & ? & ? & ? & _).
  - destruct (ParseInt sid); simpl; [destruct (ParseInt sburst); simpl|];
      (split; [done|]); by intros (? & ? & ? & ? & ? & _).
  - destruct (ParseInt sid) as [id|] eqn:Hid; simpl;
      [destruct (ParseInt sburst) as [burst|] eqn:Hburst; simpl;
       [destruct (ParseInt sarrival) as [arrival|] eqn:Harrival; simpl|]|].
    + destruct rest as [|spriority [|more rest]]; simpl.
      * split.
        -- intros [= <-]. by eexists _, _, _, _.
        -- intros (? & ? & ? & ? & [= <- <- <- <-] & Hi & Hb & Ha & Hp).
           destruct p. simpl in *. congruence.
      * destruct (ParseInt spriority) as [priority|] eqn:Hpriority; simpl.
        -- split.
           ++ intros [= <-]. by eexists _, _, _, _.
           ++ intros (? & ? & ? & ? & [= <- <- <- <-] & Hi & Hb & Ha & Hp).
              destruct p. simpl in *. congruence.
        -- split; [done|].
           intros (? & ? & ? & ? & [= <- <- <- <-] & Hi & Hb & Ha & Hp).
           congruence.
      * split.
        -- intros [= <-]. by eexists _, _, _, _.
        -- intros (? & ? & ? & ? & [= <- <- <- <-] & Hi & Hb & Ha & Hp).
           destruct p. simpl in *. congruence.
    + split; [done|].
      intros (? & ? & ? & ? & [= <- <- <- <-] & Hi & Hb & Ha & Hp). congruence.
    + split; [done|].
      intros (? & ? & ? & ? & [= <- <- <- <-] & Hi & Hb & Ha & Hp). congruence.
    + split; [done|].
      intros (? & ? & ? & ? & [= <- <- <- <-] & Hi & Hb & Ha & Hp). congruence.
Qed.

(** X18.  [loadProcesses] returns a list of processes exactly when every
    row loads, and then it returns one process per row, in the order of the
    rows: fields one to three are the id, the burst and the arrival; the
    priority is read only from a row of exactly four fields and is 0 for a
    row of three fields or of more than four. *)
Theorem loadProcesses_loads_every_row (ParseInt : string → option Z)
    (rows : list (list string)) (processes : list Process) :
  loadProcesses ParseInt (Some rows) = Ok processes ↔
  Forall2 (row_loads ParseInt) rows processes.
Proof.
  simpl. revert processes.
  induction rows as [|row rows IH]; intros processes; simpl.
  - split; [intros [= <-]; constructor|by intros ->%Forall2_nil_inv_l].
  - split.
    + destruct (load_row ParseInt row) as [p| | |] eqn:Hrow; simpl; try done.
      destruct (load_rows ParseInt rows) as [ps| | |] eqn:Hrows; simpl; try done.
      intros [= <-]. constructor; [by apply load_row_Ok|by apply IH].
    + intros (p & ps & Hp & Hps & ->)%Forall2_cons_inv_l.
      apply load_row_Ok in Hp as ->. apply IH in Hps as ->. done.
Qed.

(** X19.  How a row fails to load.  The loader panics on an index out of
    range exactly when the row has fewer than three fields and all of them
    parse; it exits with status 1 exactly when one of the fields it reads
    does not parse, where the fields it reads are the first four of a row
    of exactly four fields and the first three of any other row. *)
Theorem load_row_failures (ParseInt : string → option Z) (row : list string) :
  (load_row ParseInt row = IndexPanic ↔
     (length row < 3)%nat ∧ Forall (λ s, is_Some (ParseInt s)) row) ∧
  (load_row ParseInt row = Exit1 ↔
     Exists (λ s, ParseInt s = None)
            (take (if decide (length row = 4%nat) then 4 else 3) row)) ∧
  load_row ParseInt row ≠ ReadError.
Proof.
  unfold load_row, load_field, mustStrToInt.
  destruct row as [|a [|b [|c [|d [|e row]]]]]; simpl;
    rewrite ?Forall_cons, ?Exists_cons, ?Exists_nil, ?Forall_nil;
    repeat match goal with
    | |- context [ParseInt ?s] => destruct (ParseInt s); simpl
    end;
    repeat split; try done; try lia; intros;
    repeat match goal with
    | H : _ ∧ _ |- _ => destruct H
    | H : _ ∨ _ |- _ => destruct H
    | H : is_Some None |- _ => destruct H as [? ?]
    | H : False |- _ => destruct H
    end;
    try done; try lia; eauto 10.
Qed.

Lemma ParseDigit_in_range s z : ParseDigit s = Some z → Int64.in_range z.
Proof.
  unfold ParseDigit. destruct s as [|c [|? ?]]; try done.
  case_bool_decide; [|done]. intros [= <-].
  unfold Int64.in_range, Int64.min_int, Int64.max_int. lia.
Qed.

(** X20.  The first row that does not load decides the outcome: when the
    rows before it load, [loadProcesses] exits or panics as that row does,
    whatever the rows after it hold. *)
Theorem loadProcesses_stops_at_first_bad_row (ParseInt : string → option Z)
    (rows1 rows2 : list (list string)) (bad : list string)
    (processes1 : list Process) :
  Forall2 (row_loads ParseInt) rows1 processes1 →
  (load_row ParseInt bad = Exit1 →
   loadProcesses ParseInt (Some (rows1 ++ bad :: rows2)) = Exit1) ∧
  (load_row ParseInt bad = IndexPanic →
   loadProcesses ParseInt (Some (rows1 ++ bad :: rows2)) = IndexPanic).
Proof.
  simpl. induction 1 as [|row p rows1 ps1 Hrow _ [IHexit IHpanic]]; simpl.
  - split; by intros ->.
  - apply load_row_Ok in Hrow as ->. simpl.
    split; intros Hbad; [rewrite (IHexit Hbad)|rewrite (IHpanic Hbad)]; done.
Qed.

Lemma loadProcesses_stops_at_first_bad_row_witness :
  loadProcesses ParseDigit (Some ([["1"; "5"; "0"]] ++ ["2"; "x"] :: [["3"]]))
    = Exit1 ∧
  loadProcesses ParseDigit (Some ([["1"; "5"; "0"]] ++ ["2"; "3"] :: [["x"]]))
    = IndexPanic.
Proof.
  split.
  - apply (loadProcesses_stops_at_first_bad_row ParseDigit
             [["1"; "5"; "0"]] [["3"]] ["2"; "x"] [mkProcess 1 0 5 0]);
      [|reflexivity].
    constructor; [|constructor]. by eexists "1", "5", "0", [].
  - apply (loadProcesses_stops_at_first_bad_row ParseDigit
             [["1"; "5"; "0"]] [["x"]] ["2"; "3"] [mkProcess 1 0 5 0]);
      [|reflexivity].
    constructor; [|constructor]. by eexists "1", "5", "0", [].
Defined.

Lemma loadProcesses_rows_load ParseInt rows processes :
  loadProcesses ParseInt (Some rows) = Ok processes →
  Forall2 (row_loads ParseInt) rows processes.
Proof.
  simpl. revert processes.
  induction rows as [|row rows IH]; intros processes; simpl.
  - intros [= <-]. constructor.
  - destruct (load_row ParseInt row) as [p| | |] eqn:Hrow; simpl; try done.
    destruct (load_rows ParseInt rows) as [ps| | |] eqn:Hrows; simpl; try done.
    intros [= <-]. constructor; [by apply load_row_Ok|by apply IH].
Qed.

(** X21.  What [loadProcesses] returns is what the schedulers are proved
    for: one process per row, every field an [int64], given that
    [strconv.ParseInt] with bit size 64 yields [int64] values. *)
Theorem loadProcesses_yields_int64 (ParseInt : string → option Z)
    (rows : list (list string)) (processes : list Process) :
  (∀ s z, ParseInt s = Some z → Int64.in_range z) →
  loadProcesses ParseInt (Some rows) = Ok processes →
  length processes = length rows ∧ Forall int64_process processes.
Proof.
  intros Hrange Hload. apply loadProcesses_rows_load in Hload.
  split; [symmetry; by eapply Forall2_length|].
  induction Hload as [|row p rows ps Hrow _ IH]; constructor; [|done].
  destruct Hrow as (sid & sburst & sarrival & rest & _ & Hid & Hb & Ha & Hp).
  split; [by eapply Hrange|]. split; [by eapply Hrange|].
  split; [by eapply Hrange|].
  destruct rest as [|spriority [|? ?]]; try (by eapply Hrange);
    rewrite Hp; unfold Int64.in_range, Int64.min_int, Int64.max_int; lia.
Qed.

Lemma loadProcesses_yields_int64_witness :
  length [mkProcess 1 0 5 0; mkProcess 2 0 3 4] =
    length [["1"; "5"; "0"]; ["2"; "3"; "0"; "4"]] ∧
  Forall int64_process [mkProcess 1 0 5 0; mkProcess 2 0 3 4].
Proof.
  apply (loadProcesses_yields_int64 ParseDigit
           [["1"; "5"; "0"]; ["2"; "3"; "0"; "4"]]).
  - apply ParseDigit_in_range.
  - reflexivity.
Defined.

(** ** Less *)


Lemma printed_app e1 e2 : printed (e1 ++ e2) = printed e1 ++ printed e2.
Proof. unfold printed. by rewrite omap_app. Qed.


Lemma Less_loop_printed lines lineNumber :
  0 ≤ lineNumber →
  lineNumber + Z.of_nat (length lines) ≤ Int64.max_int →
  printed (Less_loop lines lineNumber) =
    imap (λ i text, (lineNumber + Z.of_nat i, text)) lines.
Proof.
  revert lineNumber. induction lines as [|text lines IH]; intros n Hn Hmax.
  - done.
  - cbn [Less_loop length] in *.
    assert (Int64.add n 1 = n + 1) as ->.
    { apply Int64_wrap_id.
      unfold Int64.in_range, Int64.min_int, Int64.max_int in *. lia. }
    change (PrintLine n text :: ?l) with ([PrintLine n text] ++ l).
    rewrite !printed_app, IH by lia.
    assert (printed (if Z.rem (n + 1) 20 =? 0 then [PressEnter] else []) = [])
      as -> by (by destruct (Z.rem (n + 1) 20 =? 0)).
    simpl. rewrite Z.add_0_r. f_equal.
    apply imap_ext. intros i x _. simpl. f_equal. lia.
Qed.



(** X23.  [Less] prints every line the scanner yields exactly once, in
    order, numbered from 1; a read error is reported after the last line;
    a file that cannot be opened yields the error message only.  In every
    case the function returns [nil]. *)
Theorem Less_prints_every_line (lines : list string) (failed : bool) :
  Z.of_nat (length lines) < Int64.max_int →
  printed (Less (Some (lines, failed))).1 =
    imap (λ i text, (1 + Z.of_nat i, text)) lines ∧
  (last (Less (Some (lines, failed))).1 = Some PrintReadError ↔ failed = true) ∧
  (Less (Some (lines, failed))).2 = None ∧
  Less None = ([PrintOpenError], None).
Proof.
  intros Hmax. simpl. split; [|split; [|done]].
  - rewrite printed_app, Less_loop_printed by lia.
    assert (printed (if failed then [PrintReadError] else []) = []) as ->
      by (by destruct failed).
    by rewrite app_nil_r.
  - destruct failed.
    + rewrite last_snoc. done.
    + rewrite app_nil_r. split; [|done]. intros Hlast.
      assert (PrintReadError ∈ Less_loop lines 1) as Hin.
      { apply last_Some in Hlast as [l' ->]. set_solver. }
      exfalso. clear -Hin. revert Hin. generalize 1.
      induction lines as [|text lines IH]; intros n; simpl.
      * by intros ?%elem_of_nil.
      * rewrite elem_of_cons, elem_of_app. intros [?|[Hp|?]]; [done| |by eapply IH].
        destruct (Z.rem (Int64.add n 1) 20 =? 0);
          [by apply list_elem_of_singleton in Hp|by apply elem_of_nil in Hp].
Qed.

Lemma Less_prints_every_line_witness :
  printed (Less (Some (["a"; "b"], true))).1 =
    imap (λ i text, (1 + Z.of_nat i, text)) ["a"; "b"] ∧
  (last (Less (Some (["a"; "b"], true))).1 = Some PrintReadError ↔ true = true) ∧
  (Less (Some (["a"; "b"], true))).2 = None ∧
  Less None = ([PrintOpenError], None).
Proof.
  apply (Less_prints_every_line ["a"; "b"] true). vm_compute. reflexivity.
Defined.

